(** * The Git issues helper ([src/git_issues.py]) as a shallow embedding

    The module reads a JSON list of issue records from a file, filters the
    records by their normalised status and rewrites the status of some of
    them in place.  The embedding keeps the three layers of the source:

    - text: [str.strip] and [str.lower] on strings;
    - the Python store: issue records are dictionaries that live in a heap
      and are shared by reference, the file system, the process environment
      and the clock;
    - the functions of the module, written in a state-and-exception monad
      over that store. *)

From Stdlib Require Import ZArith NArith Ascii String.
From stdpp Require Import base option list gmap strings.

Set Warnings "-register-all".

Open Scope string_scope.
Open Scope list_scope.

(** ** Text

    A Python [str] is modelled by a [string] with one [ascii] per code
    point, which covers the code points below 256. *)

Module Text.

(** [str.isspace] on one code point: U+0009..U+000D, U+001C..U+001F,
    U+0020, U+0085 and U+00A0 are the white space below 256. *)
Definition is_space (c : ascii) : bool :=
  let n := N_of_ascii c in
  ((9 <=? n) && (n <=? 13) || (28 <=? n) && (n <=? 32)
   || (n =? 133) || (n =? 160))%N.

(** [str.lower] on one code point: A..Z and the Latin-1 capitals
    U+00C0..U+00DE (the multiplication sign U+00D7 apart) move by 32. *)
Definition lower_char (c : ascii) : ascii :=
  let n := N_of_ascii c in
  if ((65 <=? n) && (n <=? 90)
      || (192 <=? n) && (n <=? 222) && negb (n =? 215))%N
  then ascii_of_N (n + 32) else c.

Fixpoint lower (s : string) : string :=
  match s with
  | EmptyString => EmptyString
  | String c s' => String (lower_char c) (lower s')
  end.

Fixpoint lstrip (s : string) : string :=
  match s with
  | EmptyString => EmptyString
  | String c s' => if is_space c then lstrip s' else s
  end.

Fixpoint rstrip (s : string) : string :=
  match s with
  | EmptyString => EmptyString
  | String c s' =>
      match rstrip s' with
      | EmptyString => if is_space c then EmptyString else String c EmptyString
      | r => String c r
      end
  end.

(** [str.strip()] without argument. *)
Definition strip (s : string) : string := rstrip (lstrip s).

(** [name.endswith(suffix)], used for the pattern [*.json]. *)
Fixpoint ends_with (suffix s : string) : bool :=
  if String.eqb s suffix then true
  else match s with
       | EmptyString => false
       | String _ s' => ends_with suffix s'
       end.

End Text.

(** ** JSON values and Python objects

    [json.load] yields [None], [bool], [int], [float], [str], [list] and
    [dict] objects.  A [dict] compares by its key/value pairs whatever the
    insertion order, which is the equality of [gmap].  No function of the
    module looks inside a number; a float is carried by its binary64 bit
    pattern. *)

Inductive json : Type :=
  | JNull
  | JBool (b : bool)
  | JInt (n : Z)
  | JFloat (bits : Z)
  | JStr (s : string)
  | JArr (items : list json)
  | JObj (fields : gmap string json).

Global Instance json_inhabited : Inhabited json := populate JNull.

(** [isinstance(x, MutableMapping)] *)
Definition is_mapping (x : json) : bool :=
  match x with JObj _ => true | _ => false end.

(** ** Exceptions and results *)

Inductive exn : Type :=
  | FileNotFoundError
  | IsADirectoryError
  | JSONDecodeError
  | ValueError
  | AttributeError
  | TypeError.

Global Instance exn_eq_dec : EqDecision exn.
Proof. solve_decision. Defined.

Inductive result (A : Type) : Type :=
  | Ok (a : A)
  | Raise (e : exn).
Arguments Ok {A} a.
Arguments Raise {A} e.

(** ** The file system

    A directory lists its entries in the order [os.scandir] reports them.
    A path is the list of its components from the root; the working
    directory is the root, so that relative and absolute paths coincide.
    There are no links, and [..] is a name like any other. *)

Inductive node : Type :=
  | File (content : string)
  | Dir (entries : list (string * node)).

Definition path : Type := list string.

Module FS.

Fixpoint entry (name : string) (es : list (string * node)) : option node :=
  match es with
  | [] => None
  | (n, x) :: es' => if String.eqb n name then Some x else entry name es'
  end.

Fixpoint walk (n : node) (p : path) : option node :=
  match p with
  | [] => Some n
  | c :: p' =>
      match n with
      | Dir es =>
          match entry c es with
          | Some x => walk x p'
          | None => None
          end
      | File _ => None
      end
  end.

(** [Path.is_file()] and [Path.exists()] *)
Definition is_file (root : node) (p : path) : bool :=
  match walk root p with Some (File _) => true | _ => false end.

Definition exists_ (root : node) (p : path) : bool :=
  match walk root p with Some _ => true | None => false end.

(** The entries of one directory that match [*.json], as paths. *)
Definition matches_here (here : path) (es : list (string * node)) : list path :=
  map (fun e => here ++ [e.1])
      (filter (fun e => Is_true (Text.ends_with ".json" e.1)) es).

(** [Path.rglob("*.json")]: the directories below (and including) the
    starting point are visited parents first, and each yields its own
    matching entries; an entry that matches may be a file or a
    directory.  No depth bound is involved. *)
Fixpoint rglob_json (here : path) (n : node) : list path :=
  match n with
  | File _ => []
  | Dir es =>
      matches_here here es ++
      (fix below (es : list (string * node)) : list path :=
         match es with
         | [] => []
         | (name, x) :: es' => rglob_json (here ++ [name]) x ++ below es'
         end) es
  end.

(** [open(p, "w")] followed by writing [text], for a path that names a
    regular file: the content is replaced, nothing else changes. *)
Fixpoint write (n : node) (p : path) (text : string) : node :=
  match p with
  | [] => match n with File _ => File text | Dir _ => n end
  | c :: p' =>
      match n with
      | File _ => n
      | Dir es =>
          Dir ((fix upd (es : list (string * node)) : list (string * node) :=
                  match es with
                  | [] => []
                  | (name, x) :: es' =>
                      if String.eqb name c then (name, write x p' text) :: es'
                      else (name, x) :: upd es'
                  end) es)
      end
  end.

(** [Path(s)]: the components between slashes, empty components and [.]
    dropped. *)
Fixpoint split_slash (cur : string) (s : string) : list string :=
  match s with
  | EmptyString => [cur]
  | String c s' =>
      if Ascii.eqb c "/"%char then cur :: split_slash EmptyString s'
      else split_slash (cur +:+ String c EmptyString) s'
  end.

Definition Path (s : string) : path :=
  filter (fun c => c ≠ "" ∧ c ≠ ".") (split_slash EmptyString s).

(** [Path.name] *)
Definition name (p : path) : string := List.last p "".

End FS.

(** ** The store

    [heap]: the Python objects reachable from a sequence of issues; a
    reference ([loc]) is an index into it, and two positions of a sequence
    may hold the same reference.  [clock n] is the text that the [n]-th
    call of [datetime.now(timezone.utc).isoformat()] returns, [ticks]
    counts the calls made so far.  [module_root] is
    [Path(__file__).resolve().parents[1]]. *)

Definition loc : Type := nat.

Record world : Type := World {
  heap : list json;
  fs : node;
  environ : gmap string string;
  module_root : path;
  clock : nat → string;
  ticks : nat;
}.

Definition set_heap (h : list json) (w : world) : world :=
  World h (fs w) (environ w) (module_root w) (clock w) (ticks w).

Definition set_fs (n : node) (w : world) : world :=
  World (heap w) n (environ w) (module_root w) (clock w) (ticks w).

Definition tick (w : world) : world :=
  World (heap w) (fs w) (environ w) (module_root w) (clock w) (S (ticks w)).

(** The object behind a reference.  Python has no dangling reference; an
    index outside the heap reads as [None], which is not a mapping. *)
Definition obj (h : list json) (l : loc) : json := default JNull (h !! l).

(** ** The JSON library

    [json.dump] (with the options [save_issues] passes) and [json.load]
    belong to the standard library, not to the module: they are taken as
    an interface.  [json_load] is [None] where [json.load] raises
    [JSONDecodeError]. *)

Class JsonCodec : Type := {
  json_dump : json → string;
  json_load : string → option json;
}.

(** ** The monad of the module's functions: state and exceptions *)

Definition M (A : Type) : Type := world → result A * world.

Global Instance M_ret : MRet M := λ A a w, (Ok a, w).

Global Instance M_bind : MBind M := λ A B f m w,
  match m w with
  | (Ok a, w') => f a w'
  | (Raise e, w') => (Raise e, w')
  end.

Definition raise {A : Type} (e : exn) : M A := λ w, (Raise e, w).
Definition gets {A : Type} (f : world → A) : M A := λ w, (Ok (f w), w).
Definition lift {A : Type} (f : world → result A) : M A := λ w, (f w, w).

(** [for x in xs: body(x)] *)
Fixpoint for_each {A : Type} (body : A → M unit) (xs : list A) : M unit :=
  match xs with
  | [] => mret tt
  | x :: xs' => body x ;; for_each body xs'
  end.

(** ** The module *)

Definition DEFAULT_ISSUE_FILE_CANDIDATES : list string :=
  [ "git_issues.json"; "GitIssues.json"; "issues.json"; "git-issues.json";
    "Git Issues.json" ].

Definition _normalise_status (status : json) : M string :=
  match status with
  | JNull => mret ""
  | JStr s => mret (Text.lower (Text.strip s))
  | _ => raise AttributeError
  end.

(** [x.get(key) if isinstance(x, MutableMapping) else None], on the object
    and through a reference. *)
Definition dict_get (x : json) (key : string) : json :=
  match x with
  | JObj fields => default JNull (fields !! key)
  | _ => JNull
  end.

Definition get_if_mapping (issue : loc) (key : string) : M json :=
  gets (λ w, dict_get (obj (heap w) issue) key).

(** [issue[key] = value] *)
Definition setitem (issue : loc) (key : string) (value : json) : M unit :=
  λ w, match heap w !! issue with
       | Some (JObj fields) =>
           (Ok tt, set_heap (<[issue := JObj (<[key := value]> fields)]> (heap w)) w)
       | _ => (Raise TypeError, w)
       end.

(** [issue.setdefault(key, value)] *)
Definition setdefault (issue : loc) (key : string) (value : json) : M unit :=
  λ w, match heap w !! issue with
       | Some (JObj fields) =>
           match fields !! key with
           | Some _ => (Ok tt, w)
           | None =>
               (Ok tt, set_heap (<[issue := JObj (<[key := value]> fields)]> (heap w)) w)
           end
       | _ => (Raise AttributeError, w)
       end.

Definition _ensure_status_key (issue : loc) (new_status : string) : M unit :=
  setitem issue "status" (JStr new_status) ;;
  setitem issue "state" (JStr new_status).

Definition _timestamp : M string :=
  λ w, (Ok (clock w (ticks w)), tick w).

(** The first candidate that names a regular file in [dir]. *)
Fixpoint first_candidate_file (root : node) (dir : path) (candidates : list string)
  : option path :=
  match candidates with
  | [] => None
  | candidate :: rest =>
      let candidate_path := dir ++ FS.Path candidate in
      if FS.is_file root candidate_path then Some candidate_path
      else first_candidate_file root dir rest
  end.

(** The first path of the scan whose name is a candidate
    ([path.name in candidates]). *)
Definition first_named (candidates : list string) (found : list path) : option path :=
  List.find (λ p, bool_decide (FS.name p ∈ candidates)) found.

(** [find_issues_file], as a function of what it reads: the file system,
    the environment and the default search root. *)
Definition find_issues_file_in
    (tree : node) (env : gmap string string) (default_root : path)
    (explicit_path search_root : option string) (candidates : list string)
  : result path :=
  match explicit_path with
  | Some explicit_path =>
      let path := FS.Path explicit_path in
      if FS.is_file tree path then Ok path else Raise FileNotFoundError
  | None =>
      let from_env :=
        match env !! "GIT_ISSUES_FILE" with
        | Some env_path =>
            if bool_decide (env_path ≠ "") && FS.is_file tree (FS.Path env_path)
            then Some (FS.Path env_path) else None
        | None => None
        end in
      match from_env with
      | Some path => Ok path
      | None =>
          let root_path :=
            match search_root with
            | None => default_root
            | Some r => FS.Path r
            end in
          match first_candidate_file tree root_path candidates with
          | Some candidate_path => Ok candidate_path
          | None =>
              let git_dir := root_path ++ [".git"] in
              let in_git :=
                if FS.exists_ tree git_dir
                then first_candidate_file tree git_dir candidates
                else None in
              match in_git with
              | Some candidate_path => Ok candidate_path
              | None =>
                  let scan :=
                    match FS.walk tree root_path with
                    | Some n => FS.rglob_json root_path n
                    | None => []
                    end in
                  match first_named candidates scan with
                  | Some path => Ok path
                  | None => Raise FileNotFoundError
                  end
              end
          end
      end
  end.

Definition find_issues_file
    (explicit_path search_root : option string) (candidates : list string) : M path :=
  lift (λ w, find_issues_file_in (fs w) (environ w) (module_root w)
                                 explicit_path search_root candidates).

(** [issues_path.open("r")] and reading the whole text *)
Definition read_text (p : path) : M string :=
  lift (λ w, match FS.walk (fs w) p with
             | Some (File text) => Ok text
             | Some (Dir _) => Raise IsADirectoryError
             | None => Raise FileNotFoundError
             end).

(** [issues_path.open("w")] and writing [text].  [find_issues_file] only
    returns entries that exist, so the case of a new file does not arise
    and is left out as [FileNotFoundError]. *)
Definition write_text (p : path) (text : string) : M unit :=
  λ w, match FS.walk (fs w) p with
       | Some (File _) => (Ok tt, set_fs (FS.write (fs w) p text) w)
       | Some (Dir _) => (Raise IsADirectoryError, w)
       | None => (Raise FileNotFoundError, w)
       end.

(** The elements of a freshly parsed list become objects of the heap. *)
Definition alloc_all (items : list json) : M (list loc) :=
  λ w, (Ok (seq (length (heap w)) (length items)), set_heap (heap w ++ items) w).

Section Functions.

Context `{codec : JsonCodec}.

(** The loop of [load_issues]. *)
Fixpoint load_loop (data : list loc) (normalised : list loc) : M (list loc) :=
  match data with
  | [] => mret normalised
  | item :: rest =>
      x ← gets (λ w, obj (heap w) item);
      if is_mapping x then load_loop rest (normalised ++ [item])
      else raise ValueError
  end.

Definition load_issues (file_path : option string) : M (list loc) :=
  issues_path ← find_issues_file file_path None DEFAULT_ISSUE_FILE_CANDIDATES;
  text ← read_text issues_path;
  match json_load text with
  | None => raise JSONDecodeError
  | Some (JArr items) =>
      data ← alloc_all items;
      load_loop data []
  | Some _ => raise ValueError
  end.

Definition save_issues (issues : list loc) (file_path : option string) : M path :=
  issues_path ← find_issues_file file_path None DEFAULT_ISSUE_FILE_CANDIDATES;
  values ← gets (λ w, map (obj (heap w)) issues);
  write_text issues_path (json_dump (JArr values) +:+ String "010"%char EmptyString) ;;
  mret issues_path.

(** The status lookup that the three loops below spell out in the same
    way: the text under [status], and the text under [state] when that
    one is empty. *)
Definition issue_status (issue : loc) : M string :=
  v ← get_if_mapping issue "status";
  status ← _normalise_status v;
  if bool_decide (status = "") then
    v ← get_if_mapping issue "state";
    _normalise_status v
  else mret status.

Definition open_statuses : list string :=
  [ "open"; "opened"; "todo"; "backlog"; "in_progress" ].

Fixpoint list_open_loop (issues : list loc) (result : list loc) : M (list loc) :=
  match issues with
  | [] => mret result
  | issue :: rest =>
      status ← issue_status issue;
      if bool_decide (status ∈ open_statuses)
      then list_open_loop rest (result ++ [issue])
      else list_open_loop rest result
  end.

Definition list_open_issues (issues : option (list loc)) (file_path : option string)
  : M (list loc) :=
  issues ← match issues with
           | None => load_issues file_path
           | Some issues => mret issues
           end;
  list_open_loop issues [].

Definition close_body (issue : loc) : M unit :=
  status ← issue_status issue;
  if bool_decide (status = "implemented") then
    _ensure_status_key issue "closed" ;;
    now ← _timestamp;
    setdefault issue "closed_at" (JStr now)
  else mret tt.

Definition close_implemented_issues
    (issues : option (list loc)) (file_path : option string) : M (list loc) :=
  '(issues, persist) ← match issues with
                       | None => issues ← load_issues file_path; mret (issues, true)
                       | Some issues => mret (issues, false)
                       end;
  for_each close_body issues ;;
  (if persist : bool then save_issues issues file_path ;; mret tt else mret tt) ;;
  mret issues.

Definition complete_body (issue : loc) : M unit :=
  status ← issue_status issue;
  if bool_decide (status ∈ ["open"; "opened"]) then
    _ensure_status_key issue "completed" ;;
    now ← _timestamp;
    setdefault issue "completed_at" (JStr now)
  else mret tt.

Definition complete_open_issues
    (issues : option (list loc)) (file_path : option string) : M (list loc) :=
  '(issues, persist) ← match issues with
                       | None => issues ← load_issues file_path; mret (issues, true)
                       | Some issues => mret (issues, false)
                       end;
  for_each complete_body issues ;;
  (if persist : bool then save_issues issues file_path ;; mret tt else mret tt) ;;
  mret issues.

End Functions.

(** ** The vocabulary of the specification

    These definitions follow the words of the specification, not the
    code; the theorems below relate them to the functions above. *)

(** The text under [key], lower-cased and trimmed; a missing value (no
    such key, a [null], or no mapping at all) counts as the empty text. *)
Definition field_text (x : json) (key : string) : string :=
  match x with
  | JObj fields =>
      match fields !! key with
      | Some (JStr s) => Text.lower (Text.strip s)
      | _ => ""
      end
  | _ => ""
  end.

(** The normalised status: the text under [status], falling back to the
    text under [state]. *)
Definition normalized_status (x : json) : string :=
  if bool_decide (field_text x "status" = "") then field_text x "state"
  else field_text x "status".

(** A value of an issue record that holds a status is a string, or is
    missing. *)
Definition textual (x : json) (key : string) : bool :=
  match x with
  | JObj fields =>
      match fields !! key with
      | None | Some JNull | Some (JStr _) => true
      | Some _ => false
      end
  | _ => true
  end.

(** An issue record in the sense of the data model: the status fields that
    the status lookup reads hold strings ([state] is not read when the
    text under [status] is not empty). *)
Definition status_readable (x : json) : bool :=
  textual x "status" &&
  (bool_decide (field_text x "status" ≠ "") || textual x "state").

Definition issue_records (h : list json) (issues : list loc) : Prop :=
  Forall (λ l, Is_true (status_readable (obj h l))) issues.

(** What both mutation loops do to one record, with the matching status,
    the new status and the name of the time stamp left open. *)
Definition mark_body (matches : string → bool) (new_status stamp : string)
    (issue : loc) : M unit :=
  status ← issue_status issue;
  if matches status then
    _ensure_status_key issue new_status ;;
    now ← _timestamp;
    setdefault issue stamp (JStr now)
  else mret tt.

Definition marked (new_status stamp now : string) (x : json) : json :=
  match x with
  | JObj fields =>
      let fields' := <["state" := JStr new_status]> (<["status" := JStr new_status]> fields) in
      match fields' !! stamp with
      | Some _ => JObj fields'
      | None => JObj (<[stamp := JStr now]> fields')
      end
  | _ => x
  end.


(** What a run of a mutation loop over [issues] leaves behind: only the
    heap and the clock move; a record of the sequence whose status matched
    is [marked] with a time read during the run, and every other object
    is the one it was. *)
Definition mark_result (matches : string → bool) (new_status stamp : string)
    (issues : list loc) (w w' : world) : Prop :=
  fs w' = fs w ∧ environ w' = environ w ∧ module_root w' = module_root w ∧
  clock w' = clock w ∧ (ticks w ≤ ticks w')%nat ∧
  length (heap w') = length (heap w) ∧
  ∀ l : loc,
    if decide (l ∈ issues ∧ matches (normalized_status (obj (heap w) l)))
    then ∃ n, (ticks w ≤ n < ticks w')%nat ∧
              heap w' !! l = Some (marked new_status stamp (clock w n) (obj (heap w) l))
    else heap w' !! l = heap w !! l.

(** The two instances of the loop body. *)
Definition is_implemented (status : string) : bool :=
  bool_decide (status = "implemented").

Definition is_open_or_opened (status : string) : bool :=
  bool_decide (status ∈ ["open"; "opened"]).

(** Between [x] and [x'] at most the two status fields and the time stamp
    [stamp] differ. *)
Definition same_but_status (stamp : string) (x x' : json) : Prop :=
  match x, x' with
  | JObj fields, JObj fields' =>
      ∀ key, key ≠ "status" → key ≠ "state" → key ≠ stamp →
             fields' !! key = fields !! key
  | _, _ => x' = x
  end.

(** A computation that leaves the file system as it found it, whether it
    returns or raises. *)
Definition keeps_fs {A : Type} (m : M A) : Prop :=
  ∀ w : world, fs (m w).2 = fs w.

(** The parsed content is a list all of whose elements are objects. *)
Definition list_of_objects (v : json) : Prop :=
  ∃ items : list json, v = JArr items ∧ Forall (λ x, Is_true (is_mapping x)) items.

(** ** The file system up to the contents of its files *)

(** [shape n] forgets what the files hold and keeps the names. *)
Fixpoint shape (n : node) : node :=
  match n with
  | File _ => File ""
  | Dir es =>
      Dir ((fix each (es : list (string * node)) : list (string * node) :=
              match es with
              | [] => []
              | (name, x) :: es' => (name, shape x) :: each es'
              end) es)
  end.

(** Induction on a tree with the hypothesis for every entry of a
    directory. *)
Fixpoint node_nested_ind (P : node → Prop)
    (on_file : ∀ text, P (File text))
    (on_dir : ∀ es, Forall (λ e, P e.2) es → P (Dir es))
    (n : node) : P n :=
  match n with
  | File text => on_file text
  | Dir es =>
      on_dir es
        ((fix all (es : list (string * node)) : Forall (λ e, P e.2) es :=
            match es with
            | [] => @Lists.List.Forall_nil _ (λ e, P e.2)
            | (name, x) :: es' =>
                @Lists.List.Forall_cons _ (λ e, P e.2) (name, x) es'
                  (node_nested_ind P on_file on_dir x) (all es')
            end) es)
  end.

(** The scan as the comment in [find_issues_file] and the specification
    word it, a shallow one: the directories at most [depth] levels below
    the starting point are visited, parents first. *)
Fixpoint rglob_json_within (depth : nat) (here : path) (n : node) : list path :=
  match n with
  | File _ => []
  | Dir es =>
      FS.matches_here here es ++
      match depth with
      | 0 => []
      | S depth' =>
          (fix below (es : list (string * node)) : list path :=
             match es with
             | [] => []
             | (name, x) :: es' =>
                 rglob_json_within depth' (here ++ [name]) x ++ below es'
             end) es
      end
  end.

(** ** Concrete stores

    The fixture of [tests/test_git_issues.py]: three issues, one open, one
    implemented and one closed under [state], in a file named
    [git_issues.json] that the environment variable points to. *)

Module Fixture.

Definition record (fields : list (string * json)) : json :=
  JObj (list_to_map fields).

Definition first : json :=
  record [("id", JInt 1); ("title", JStr "First"); ("status", JStr "open")].
Definition second : json :=
  record [("id", JInt 2); ("title", JStr "Second"); ("status", JStr "implemented")].
Definition third : json :=
  record [("id", JInt 3); ("title", JStr "Third"); ("state", JStr "closed")].

(** A JSON text is written here with apostrophes for its quotation
    marks. *)
Fixpoint quoted (s : string) : string :=
  match s with
  | EmptyString => EmptyString
  | String c s' =>
      String (if Ascii.eqb c "'"%char then ascii_of_nat 34 else c) (quoted s')
  end.

Definition text : string :=
  quoted ("[{'id': 1, 'title': 'First', 'status': 'open'}, "
          +:+ "{'id': 2, 'title': 'Second', 'status': 'implemented'}, "
          +:+ "{'id': 3, 'title': 'Third', 'state': 'closed'}]").

(** The JSON library as far as these stores need it: the text of the
    fixture, with or without a final newline, reads as the three
    records, and a list is written as that text. *)
Definition codec : JsonCodec := {|
  json_dump := λ _, text;
  json_load := λ s,
    if bool_decide (s = text ∨ s = text +:+ String "010"%char EmptyString)
    then Some (JArr [first; second; third]) else None;
|}.

Definition tree : node :=
  Dir [("tmp", Dir [("git_issues.json", File text)])].

Definition store : world :=
  World [first; second; third] tree
        {["GIT_ISSUES_FILE" := "/tmp/git_issues.json"]} ["repo"]
        (λ n, "2024-01-01T00:00:00+00:00") 0.

Definition issues : list loc := [0; 1; 2].

(** An issue with status [closed] and state [open]. *)
Definition closed_but_open : json :=
  record [("id", JInt 4); ("status", JStr "closed"); ("state", JStr "open")].

(** An issue whose status is a number. *)
Definition numbered : json :=
  record [("id", JInt 5); ("status", JInt 1)].

(** The fixture with these two records added to the heap. *)
Definition store_with_odd_records : world :=
  set_heap [first; second; third; closed_but_open; numbered] store.

(** A repository whose only issues file lies four directories below the
    search root. *)
Definition deep_tree : node :=
  Dir [("a", Dir [("b", Dir [("c", Dir [("d",
    Dir [("issues.json", File "[]")])])])])].

(** A repository in which a directory bears the name of a candidate. *)
Definition tree_with_directory : node :=
  Dir [("sub", Dir [("issues.json", Dir [])])].

End Fixture.

(** ** Further vocabulary *)

(** A text made of white space only ([s.strip() == ""]). *)
Fixpoint blank (s : string) : bool :=
  match s with
  | EmptyString => true
  | String c s' => Text.is_space c && blank s'
  end.

(** A tree as a file system has it: no directory lists a name twice. *)
Fixpoint unique_names (n : node) : bool :=
  match n with
  | File _ => true
  | Dir es =>
      bool_decide (NoDup (map fst es)) &&
      (fix all (es : list (string * node)) : bool :=
         match es with
         | [] => true
         | (_, x) :: es' => unique_names x && all es'
         end) es
  end.

(** The environment without a usable [GIT_ISSUES_FILE]: the variable is
    unset, empty, or names no regular file. *)
Definition env_names_no_file (tree : node) (env : gmap string string) : Prop :=
  ∀ env_path, env !! "GIT_ISSUES_FILE" = Some env_path →
              env_path = "" ∨ FS.is_file tree (FS.Path env_path) = false.



(** A mutation loop as a map over records that are not shared: a record
    whose status matches is [marked] with the next reading of the clock,
    the others are kept. *)
Fixpoint mark_all (matches : string → bool) (new_status stamp : string)
    (clock : nat → string) (n : nat) (xs : list json) : list json :=
  match xs with
  | [] => []
  | x :: xs' =>
      if matches (normalized_status x)
      then marked new_status stamp (clock n) x
           :: mark_all matches new_status stamp clock (S n) xs'
      else x :: mark_all matches new_status stamp clock n xs'
  end.

(** ** More concrete stores *)

Module More.

(** An issue without status and state, and one that is waiting. *)
Definition bare : json :=
  Fixture.record [("id", JInt 6); ("title", JStr "Bare")].
Definition waiting : json :=
  Fixture.record [("id", JInt 7); ("status", JStr "todo")].

Definition store : world :=
  set_heap [Fixture.first; Fixture.second; Fixture.third; bare; waiting;
            Fixture.numbered] Fixture.store.

Definition issues : list loc := [0; 1; 2; 3; 4].

(** The records of the fixture after each mutation operation. *)
Definition closed_items : list json :=
  mark_all is_implemented "closed" "closed_at" (clock Fixture.store) 0
           [Fixture.first; Fixture.second; Fixture.third].
Definition completed_items : list json :=
  mark_all is_open_or_opened "completed" "completed_at" (clock Fixture.store) 0
           [Fixture.first; Fixture.second; Fixture.third].

(** The JSON library on the two documents of a call that rewrites the
    fixture: the text of the fixture, and the text written, which reads
    as [after]. *)
Definition codec_after (after : list json) : JsonCodec := {|
  json_dump := λ _, "rewritten";
  json_load := λ s,
    if bool_decide (s = Fixture.text)
    then Some (JArr [Fixture.first; Fixture.second; Fixture.third])
    else if bool_decide (s = "rewritten" +:+ String "010"%char EmptyString)
         then Some (JArr after) else None;
|}.

(** Candidates in the search root, in [.git] and deeper. *)
Definition root_tree : node :=
  Dir [("issues.json", File "[]"); ("GitIssues.json", File "[]");
       (".git", Dir [("git_issues.json", File "[]")])].

Definition git_tree : node :=
  Dir [(".git", Dir [("issues.json", File "[]")]);
       ("sub", Dir [("git_issues.json", File "[]")])].

Definition text_tree : node :=
  Dir [("issues.txt", File "[]"); ("sub", Dir [("issues.txt", File "[]")])].

End More.

(** ** Text, on examples *)

Example strip_lower_mixed :
  Text.lower (Text.strip "  In_Progress ") = "in_progress".
Proof. reflexivity. Qed.

Example strip_blank : Text.strip (String "009"%char " ") = "".
Proof. reflexivity. Qed.

Example strip_keeps_inner_space : Text.strip " in progress " = "in progress".
Proof. reflexivity. Qed.

Example path_components : FS.Path "/tmp//./git_issues.json" = ["tmp"; "git_issues.json"].
Proof. reflexivity. Qed.

(** ** Reasoning about the monad *)

Lemma bind_ok {A B : Type} (m : M A) (f : A → M B) (w w' : world) (a : A) :
  m w = (Ok a, w') → (m ≫= f) w = f a w'.
Proof. intros E. unfold mbind, M_bind. by rewrite E. Qed.

Lemma bind_raise {A B : Type} (m : M A) (f : A → M B) (w w' : world) (e : exn) :
  m w = (Raise e, w') → (m ≫= f) w = (Raise e, w').
Proof. intros E. unfold mbind, M_bind. by rewrite E. Qed.

Lemma get_if_mapping_run (issue : loc) (key : string) (w : world) :
  get_if_mapping issue key w = (Ok (dict_get (obj (heap w) issue) key), w).
Proof. done. Qed.

Lemma normalise_status_text (x : json) (key : string) (w : world) :
  textual x key →
  _normalise_status (dict_get x key) w = (Ok (field_text x key), w).
Proof.
  destruct x as [| | | | | |fields]; try done.
  simpl. destruct (fields !! key) as [[]|]; done.
Qed.

Lemma normalise_status_raises (x : json) (key : string) (w : world) :
  ¬ textual x key →
  _normalise_status (dict_get x key) w = (Raise AttributeError, w).
Proof.
  destruct x as [| | | | | |fields]; try (intros []; done).
  simpl. destruct (fields !! key) as [[]|]; try done; intros []; done.
Qed.

(** The status lookup of the loops computes the normalised status of a
    readable record and leaves the store alone. *)
Lemma issue_status_spec (issue : loc) (w : world) :
  status_readable (obj (heap w) issue) →
  issue_status issue w = (Ok (normalized_status (obj (heap w) issue)), w).
Proof.
  unfold status_readable, normalized_status, issue_status.
  intros [Hs Hst]%andb_prop_elim.
  erewrite bind_ok by apply get_if_mapping_run.
  erewrite bind_ok by (by apply normalise_status_text).
  destruct (decide (field_text (obj (heap w) issue) "status" = "")) as [E|E].
  2: { by rewrite !bool_decide_false. }
  rewrite !bool_decide_true by done.
  apply orb_prop_elim in Hst as [Hst|Hst].
  { by apply bool_decide_unpack in Hst. }
  erewrite bind_ok by apply get_if_mapping_run.
  by apply normalise_status_text.
Qed.

(** Otherwise the lookup raises [AttributeError]: Python finds no [strip]
    on a number, a Boolean, a list or a mapping. *)
Lemma issue_status_raises (issue : loc) (w : world) :
  ¬ status_readable (obj (heap w) issue) →
  issue_status issue w = (Raise AttributeError, w).
Proof.
  unfold status_readable, issue_status. intros Hn.
  erewrite bind_ok by apply get_if_mapping_run.
  destruct (textual (obj (heap w) issue) "status") eqn:Hs.
  - erewrite bind_ok by (apply normalise_status_text; by rewrite Hs).
    simpl in Hn.
    destruct (decide (field_text (obj (heap w) issue) "status" = "")) as [E|E].
    + rewrite bool_decide_true by done.
      erewrite bind_ok by apply get_if_mapping_run.
      apply normalise_status_raises.
      intros Ht. apply Hn. rewrite bool_decide_false; [done|by intros []].
    + destruct Hn. by rewrite bool_decide_true.
  - apply bind_raise, normalise_status_raises. by rewrite Hs.
Qed.

(** ** Computations that do not touch the file system *)

Lemma keeps_fs_ret {A : Type} (a : A) : keeps_fs (mret a).
Proof. by intros w. Qed.

Lemma keeps_fs_bind {A B : Type} (m : M A) (f : A → M B) :
  keeps_fs m → (∀ a, keeps_fs (f a)) → keeps_fs (m ≫= f).
Proof.
  intros Hm Hf w. specialize (Hm w). unfold mbind, M_bind.
  destruct (m w) as [[a|e] w']; simpl in *; [|done].
  by rewrite Hf.
Qed.

Lemma keeps_fs_issue_status (issue : loc) : keeps_fs (issue_status issue).
Proof.
  intros w. destruct (decide (status_readable (obj (heap w) issue))) as [H|H].
  - by rewrite issue_status_spec.
  - by rewrite issue_status_raises.
Qed.

Lemma keeps_fs_setitem (issue : loc) (key : string) (value : json) :
  keeps_fs (setitem issue key value).
Proof. intros w. unfold setitem. by destruct (heap w !! issue) as [[]|]. Qed.

Lemma keeps_fs_setdefault (issue : loc) (key : string) (value : json) :
  keeps_fs (setdefault issue key value).
Proof.
  intros w. unfold setdefault.
  destruct (heap w !! issue) as [[| | | | | |fields]|]; try done.
  by destruct (fields !! key).
Qed.

Lemma keeps_fs_mark_body (matches : string → bool) (new_status stamp : string)
    (issue : loc) :
  keeps_fs (mark_body matches new_status stamp issue).
Proof.
  apply keeps_fs_bind; [apply keeps_fs_issue_status|]. intros status.
  destruct (matches status); [|apply keeps_fs_ret].
  apply keeps_fs_bind.
  { apply keeps_fs_bind; [apply keeps_fs_setitem|]. intros _. apply keeps_fs_setitem. }
  intros _. apply keeps_fs_bind; [by intros w|].
  intros now. apply keeps_fs_setdefault.
Qed.

Lemma keeps_fs_for_each {A : Type} (body : A → M unit) (xs : list A) :
  (∀ x, keeps_fs (body x)) → keeps_fs (for_each body xs).
Proof.
  intros Hbody. induction xs as [|x xs IH]; [apply keeps_fs_ret|].
  simpl. apply keeps_fs_bind; [apply Hbody|]. by intros _.
Qed.

(** ** Writing a file keeps the shape of the tree *)

Lemma entry_shape (name : string) (es : list (string * node)) :
  FS.entry name
    ((fix each (es : list (string * node)) : list (string * node) :=
        match es with
        | [] => []
        | (name, x) :: es' => (name, shape x) :: each es'
        end) es)
  = shape <$> FS.entry name es.
Proof.
  induction es as [|[n x] es IH]; [done|]. simpl.
  destruct (String.eqb n name); [done|]. exact IH.
Qed.

Lemma walk_shape (p : path) : ∀ n : node,
  FS.walk (shape n) p = shape <$> FS.walk n p.
Proof.
  induction p as [|c p IH]; intros n; [done|].
  destruct n as [text|es]; [done|]. simpl.
  rewrite entry_shape. destruct (FS.entry c es) as [x|]; simpl; [apply IH|done].
Qed.

Lemma is_file_shape (n : node) (p : path) :
  FS.is_file (shape n) p = FS.is_file n p.
Proof.
  unfold FS.is_file. rewrite walk_shape.
  destruct (FS.walk n p) as [[|]|]; done.
Qed.

Lemma exists_shape (n : node) (p : path) :
  FS.exists_ (shape n) p = FS.exists_ n p.
Proof.
  unfold FS.exists_. rewrite walk_shape. destruct (FS.walk n p); done.
Qed.

Lemma matches_here_shape (here : path) (es : list (string * node)) :
  FS.matches_here here
    ((fix each (es : list (string * node)) : list (string * node) :=
        match es with
        | [] => []
        | (name, x) :: es' => (name, shape x) :: each es'
        end) es)
  = FS.matches_here here es.
Proof.
  unfold FS.matches_here.
  induction es as [|[n x] es IH]; [done|].
  rewrite !filter_cons. simpl.
  destruct (decide (Is_true (Text.ends_with ".json" n))); simpl; by rewrite IH.
Qed.

Lemma rglob_json_shape (n : node) : ∀ here : path,
  FS.rglob_json here (shape n) = FS.rglob_json here n.
Proof.
  induction n as [text|es IH] using node_nested_ind; intros here; [done|].
  simpl. rewrite matches_here_shape. f_equal.
  induction IH as [|[name x] es Hx _ IHes]; [done|].
  simpl. simpl in Hx. by rewrite Hx, IHes.
Qed.

Lemma write_shape (p : path) (text : string) : ∀ n : node,
  shape (FS.write n p text) = shape n.
Proof.
  induction p as [|c p IH]; intros n.
  { by destruct n. }
  destruct n as [t|es]; [done|]. simpl. f_equal.
  induction es as [|[name x] es IHes]; [done|]. simpl.
  destruct (String.eqb name c); simpl; [by rewrite IH|by rewrite IHes].
Qed.

(** After writing an existing file, that file holds the text. *)
Lemma walk_write_same (p : path) (text : string) : ∀ n : node,
  FS.is_file n p = true →
  FS.walk (FS.write n p text) p = Some (File text).
Proof.
  unfold FS.is_file.
  induction p as [|c p IH]; intros n Hf.
  { destruct n; done. }
  destruct n as [t|es]; [done|]. simpl in *.
  induction es as [|[name x] es IHes]; [done|]. simpl in *.
  destruct (String.eqb name c) eqn:E; simpl; rewrite E; [by apply IH|by apply IHes].
Qed.

Lemma first_candidate_file_shape (n : node) (dir : path) (candidates : list string) :
  first_candidate_file (shape n) dir candidates = first_candidate_file n dir candidates.
Proof.
  induction candidates as [|c cs IH]; [done|]. simpl.
  rewrite is_file_shape. by rewrite IH.
Qed.

(** [find_issues_file] does not read the content of any file. *)
Lemma find_issues_file_in_shape (tree : node) (env : gmap string string)
    (default_root : path) (explicit_path search_root : option string)
    (candidates : list string) :
  find_issues_file_in (shape tree) env default_root explicit_path search_root candidates
  = find_issues_file_in tree env default_root explicit_path search_root candidates.
Proof.
  unfold find_issues_file_in.
  destruct explicit_path as [e|]; [by rewrite is_file_shape|].
  rewrite !first_candidate_file_shape, exists_shape, walk_shape.
  replace (match env !! "GIT_ISSUES_FILE" with
           | Some env_path =>
               if bool_decide (env_path ≠ "") && FS.is_file (shape tree) (FS.Path env_path)
               then Some (FS.Path env_path) else None
           | None => None
           end)
    with (match env !! "GIT_ISSUES_FILE" with
          | Some env_path =>
              if bool_decide (env_path ≠ "") && FS.is_file tree (FS.Path env_path)
              then Some (FS.Path env_path) else None
          | None => None
          end)
    by (destruct (env !! "GIT_ISSUES_FILE"); [by rewrite is_file_shape|done]).
  destruct (FS.walk tree _) as [x|]; simpl; [by rewrite rglob_json_shape|done].
Qed.

Lemma find_issues_file_in_write (tree : node) (p : path) (text : string)
    (env : gmap string string) (default_root : path)
    (explicit_path search_root : option string) (candidates : list string) :
  find_issues_file_in (FS.write tree p text) env default_root
                      explicit_path search_root candidates
  = find_issues_file_in tree env default_root explicit_path search_root candidates.
Proof.
  rewrite <- find_issues_file_in_shape, write_shape.
  apply find_issues_file_in_shape.
Qed.

(** ** Listing the open issues *)

Lemma list_open_loop_spec (issues : list loc) :
  ∀ (result : list loc) (w : world),
    issue_records (heap w) issues →
    list_open_loop issues result w =
      (Ok (result ++ filter (λ l, normalized_status (obj (heap w) l) ∈ open_statuses)
                            issues), w).
Proof.
  induction issues as [|issue rest IH]; intros result w Hrec; simpl.
  { by rewrite app_nil_r. }
  apply Forall_cons in Hrec as [Hhd Htl].
  erewrite bind_ok by (by apply issue_status_spec).
  rewrite filter_cons. case_bool_decide as E.
  - rewrite decide_True by done. rewrite IH by done.
    by rewrite <- app_assoc.
  - rewrite decide_False by done. by apply IH.
Qed.

(** ** The mutation loops *)

Section Mark.

Variables (matches : string → bool) (new_status stamp : string).

Hypothesis new_nonempty : Text.lower (Text.strip new_status) ≠ "".
Hypothesis new_settled : matches (Text.lower (Text.strip new_status)) = false.
Hypothesis empty_unmatched : matches "" = false.
Hypothesis stamp_name : stamp ≠ "status" ∧ stamp ≠ "state".

Lemma marked_status (now : string) (fields : gmap string json) :
  normalized_status (marked new_status stamp now (JObj fields))
  = Text.lower (Text.strip new_status).
Proof.
  destruct stamp_name as [H1 H2].
  assert (∀ m : gmap string json, m !! "status" = Some (JStr new_status) →
            normalized_status (JObj m) = Text.lower (Text.strip new_status)) as Hm.
  { intros m E. unfold normalized_status, field_text. rewrite E.
    by rewrite bool_decide_false. }
  unfold marked. cbv zeta.
  destruct (_ !! stamp); apply Hm; by simplify_map_eq.
Qed.

Lemma marked_readable (now : string) (x : json) :
  status_readable (marked new_status stamp now x).
Proof.
  destruct stamp_name as [H1 H2].
  destruct x as [| | | | | |fields]; try done.
  assert (∀ m : gmap string json, m !! "status" = Some (JStr new_status) →
            status_readable (JObj m)) as Hm.
  { intros m E. unfold status_readable, textual, field_text. rewrite E.
    by rewrite bool_decide_true. }
  unfold marked. cbv zeta.
  destruct (_ !! stamp); apply Hm; by simplify_map_eq.
Qed.

Lemma matched_is_mapping (x : json) :
  matches (normalized_status x) = true → ∃ fields, x = JObj fields.
Proof.
  destruct x as [| | | | | |fields]; eauto;
    unfold normalized_status; simpl; by rewrite empty_unmatched.
Qed.

Lemma mark_body_skip (issue : loc) (w : world) :
  status_readable (obj (heap w) issue) →
  matches (normalized_status (obj (heap w) issue)) = false →
  mark_body matches new_status stamp issue w = (Ok tt, w).
Proof.
  intros Hr Hm. unfold mark_body.
  erewrite bind_ok by (by apply issue_status_spec).
  by rewrite Hm.
Qed.

Lemma mark_body_hit (issue : loc) (w : world) :
  status_readable (obj (heap w) issue) →
  matches (normalized_status (obj (heap w) issue)) = true →
  heap w !! issue = Some (obj (heap w) issue) ∧
  mark_body matches new_status stamp issue w =
    (Ok tt, tick (set_heap (<[issue := marked new_status stamp (clock w (ticks w))
                                          (obj (heap w) issue)]> (heap w)) w)).
Proof.
  intros Hr Hm. unfold mark_body.
  erewrite bind_ok by (by apply issue_status_spec).
  rewrite Hm.
  destruct (matched_is_mapping _ Hm) as [fields Hx].
  assert (heap w !! issue = Some (JObj fields)) as Hl.
  { unfold obj in Hx. destruct (heap w !! issue); simpl in Hx; by subst. }
  rewrite Hx. split; [done|].
  assert (issue < length (heap w)) as Hlt by by eapply lookup_lt_Some.
  unfold _ensure_status_key, setitem, setdefault, _timestamp, mbind, M_bind.
  simpl. rewrite Hl. simpl.
  rewrite list_lookup_insert_eq by done.
  rewrite list_insert_insert_eq. simpl.
  rewrite list_lookup_insert_eq by done.
  unfold tick, set_heap. simpl.
  destruct (_ !! stamp); simpl; by rewrite ?list_insert_insert_eq.
Qed.

Lemma obj_insert (h : list json) (l l' : loc) (x : json) :
  l < length h →
  obj (<[l := x]> h) l' = if decide (l = l') then x else obj h l'.
Proof.
  intros Hlt. unfold obj. destruct (decide (l = l')) as [<-|Hne].
  - by rewrite list_lookup_insert_eq.
  - by rewrite list_lookup_insert_ne.
Qed.

(** The loop over a sequence of issue records, in which a reference may
    occur more than once: the first visit marks the record, and a later
    visit of the same record finds the new status, which does not
    match. *)
Lemma mark_loop_spec (issues : list loc) :
  ∀ w : world,
    issue_records (heap w) issues →
    ∃ w' : world,
      for_each (mark_body matches new_status stamp) issues w = (Ok tt, w') ∧
      issue_records (heap w') issues ∧
      mark_result matches new_status stamp issues w w'.
Proof.
  induction issues as [|issue rest IH]; intros w Hrec.
  { exists w. split; [done|]. split; [done|].
    repeat split; done. }
  apply Forall_cons in Hrec as [Hhd Htl]. simpl.
  destruct (matches (normalized_status (obj (heap w) issue))) eqn:Hm.
  - destruct (mark_body_hit issue w Hhd Hm) as [Hl Hrun].
    set (x' := marked new_status stamp (clock w (ticks w)) (obj (heap w) issue)) in *.
    set (w1 := tick (set_heap (<[issue := x']> (heap w)) w)) in *.
    assert (issue < length (heap w)) as Hlt by by eapply lookup_lt_Some.
    assert (∀ l, obj (heap w1) l = if decide (issue = l) then x' else obj (heap w) l)
      as Hobj by (intros l; by apply obj_insert).
    assert (issue_records (heap w1) (issue :: rest)) as Hrec1.
    { apply Forall_forall. intros l Hin. rewrite Hobj.
      destruct (decide (issue = l)) as [<-|Hne]; [apply marked_readable|].
      apply elem_of_cons in Hin as [->|Hin]; [done|].
      by eapply Forall_forall in Htl. }
    apply Forall_cons in Hrec1 as [Hhd1 Htl1].
    destruct (IH w1 Htl1) as (w' & Hloop & Hrec' & Hfs & Henv & Hroot & Hclock & Hticks & Hlen & Hobjs).
    exists w'. erewrite bind_ok by exact Hrun.
    split; [done|]. split.
    { apply Forall_cons. split; [|done].
      specialize (Hobjs issue). rewrite decide_False in Hobjs.
      - unfold obj at 1. rewrite Hobjs. fold (obj (heap w1) issue). done.
      - intros [_ Hmm]. rewrite Hobj, decide_True in Hmm by done.
        destruct (matched_is_mapping _ Hm) as [fields Hx].
        unfold x' in Hmm. rewrite Hx, marked_status, new_settled in Hmm. done. }
    repeat split; try done.
    { simpl in Hticks. lia. }
    { rewrite Hlen. simpl. by rewrite length_insert. }
    intros l. specialize (Hobjs l). rewrite Hobj in Hobjs.
    destruct (decide (issue = l)) as [<-|Hne].
    + rewrite decide_True by (split; [apply elem_of_cons; by left|by rewrite Hm]).
      rewrite decide_False in Hobjs.
      * exists (ticks w). split; [simpl in Hticks; lia|].
        rewrite Hobjs. simpl. by rewrite list_lookup_insert_eq.
      * intros [_ Hmm].
        destruct (matched_is_mapping _ Hm) as [fields Hx].
        unfold x' in Hmm. rewrite Hx, marked_status, new_settled in Hmm. done.
    + destruct (decide (l ∈ rest ∧ matches (normalized_status (obj (heap w) l))))
        as [[Hin Hmm]|Hno].
      * rewrite decide_True by (split; [apply elem_of_cons; by right|done]).
        destruct Hobjs as (n & Hn & Hl'). exists n. split; [simpl in Hn; lia|].
        by rewrite Hl'.
      * rewrite decide_False.
        { rewrite Hobjs. simpl. by rewrite list_lookup_insert_ne. }
        intros [Hin Hmm]. apply Hno. split; [|done].
        apply elem_of_cons in Hin as [->|Hin]; done.
  - rewrite (bind_ok _ _ w w tt) by (by apply mark_body_skip).
    destruct (IH w Htl) as (w' & Hloop & Hrec' & Hfs & Henv & Hroot & Hclock & Hticks & Hlen & Hobjs).
    exists w'. split; [done|]. split.
    { apply Forall_cons. split; [|done].
      specialize (Hobjs issue). rewrite decide_False in Hobjs.
      - unfold obj at 1. rewrite Hobjs. done.
      - intros [_ Hmm]. by rewrite Hm in Hmm. }
    repeat split; try done.
    intros l. specialize (Hobjs l).
    destruct (decide (l ∈ rest ∧ matches (normalized_status (obj (heap w) l))))
      as [[Hin Hmm]|Hno].
    + rewrite decide_True by (split; [apply elem_of_cons; by right|done]). done.
    + rewrite decide_False; [done|].
      intros [Hin Hmm]. apply Hno. split; [|done].
      apply elem_of_cons in Hin as [->|Hin]; [by rewrite Hm in Hmm|done].
Qed.

(** A second run over the result finds nothing to do. *)
Lemma mark_loop_settled (issues : list loc) (w : world) :
  issue_records (heap w) issues →
  (∀ l, l ∈ issues → matches (normalized_status (obj (heap w) l)) = false) →
  for_each (mark_body matches new_status stamp) issues w = (Ok tt, w).
Proof.
  induction issues as [|issue rest IH]; intros Hrec Hno; [done|].
  apply Forall_cons in Hrec as [Hhd Htl]. simpl.
  rewrite (bind_ok _ _ w w tt).
  - apply IH; [done|]. intros l Hin. apply Hno, elem_of_cons. by right.
  - apply mark_body_skip; [done|]. apply Hno, elem_of_cons. by left.
Qed.

(** What [marked] does to the fields of a record. *)
Lemma marked_fields (now : string) (fields : gmap string json) :
  ∃ fields' : gmap string json,
    marked new_status stamp now (JObj fields) = JObj fields' ∧
    fields' !! "status" = Some (JStr new_status) ∧
    fields' !! "state" = Some (JStr new_status) ∧
    match fields !! stamp with
    | Some v => fields' !! stamp = Some v
    | None => fields' !! stamp = Some (JStr now)
    end ∧
    ∀ key, key ≠ "status" → key ≠ "state" → key ≠ stamp →
           fields' !! key = fields !! key.
Proof.
  destruct stamp_name as [H1 H2]. unfold marked. cbv zeta.
  assert ((<["state" := JStr new_status]> (<["status" := JStr new_status]> fields))
            !! stamp = fields !! stamp) as E by by simplify_map_eq.
  rewrite E. destruct (fields !! stamp) as [v|] eqn:Hst.
  - eexists. split; [done|]. repeat split; [by simplify_map_eq..|].
    intros key ???. by simplify_map_eq.
  - eexists. split; [done|]. repeat split; [by simplify_map_eq..|].
    intros key ???. by simplify_map_eq.
Qed.

Lemma mark_result_hit (issues : list loc) (w w' : world) (l : loc) (x : json) :
  mark_result matches new_status stamp issues w w' →
  l ∈ issues → heap w !! l = Some x →
  matches (normalized_status x) = true →
  ∃ (fields fields' : gmap string json),
    x = JObj fields ∧ heap w' !! l = Some (JObj fields') ∧
    fields' !! "status" = Some (JStr new_status) ∧
    fields' !! "state" = Some (JStr new_status) ∧
    match fields !! stamp with
    | Some v => fields' !! stamp = Some v
    | None => ∃ n, (ticks w ≤ n < ticks w')%nat ∧
                   fields' !! stamp = Some (JStr (clock w n))
    end ∧
    ∀ key, key ≠ "status" → key ≠ "state" → key ≠ stamp →
           fields' !! key = fields !! key.
Proof.
  intros (_ & _ & _ & _ & _ & _ & Hobjs) Hin Hl Hm.
  specialize (Hobjs l). unfold obj in Hobjs. rewrite Hl in Hobjs. simpl in Hobjs.
  rewrite decide_True in Hobjs by (split; [done|by rewrite Hm]).
  destruct Hobjs as (n & Hn & Hl').
  destruct (matched_is_mapping _ Hm) as [fields ->].
  destruct (marked_fields (clock w n) fields) as (fields' & E & Hs & Hst & Hts & Hfr).
  exists fields, fields'. rewrite Hl', E. repeat split; try done.
  destruct (fields !! stamp); [done|]. by exists n.
Qed.

Lemma mark_result_miss (issues : list loc) (w w' : world) (l : loc) :
  mark_result matches new_status stamp issues w w' →
  l ∉ issues ∨ matches (normalized_status (obj (heap w) l)) = false →
  heap w' !! l = heap w !! l.
Proof.
  intros (_ & _ & _ & _ & _ & _ & Hobjs) Hno.
  specialize (Hobjs l). rewrite decide_False in Hobjs; [done|].
  intros [Hin Hm]. destruct Hno as [Hno|Hno]; [done|]. by rewrite Hno in Hm.
Qed.

Lemma mark_result_frame (issues : list loc) (w w' : world) (l : loc) (x : json) :
  mark_result matches new_status stamp issues w w' →
  heap w !! l = Some x →
  ∃ x', heap w' !! l = Some x' ∧ same_but_status stamp x x'.
Proof.
  intros Hres Hl.
  destruct (decide (l ∈ issues)) as [Hin|Hout];
    [destruct (matches (normalized_status x)) eqn:Hm|].
  - destruct (mark_result_hit _ _ _ _ _ Hres Hin Hl Hm)
      as (fields & fields' & -> & Hl' & _ & _ & _ & Hfr).
    by exists (JObj fields').
  - exists x. split.
    + rewrite <- Hl. apply (mark_result_miss issues); [done|].
      right. unfold obj. by rewrite Hl.
    + destruct x; done.
  - exists x. split.
    + rewrite <- Hl. apply (mark_result_miss issues); [done|]. by left.
    + destruct x; done.
Qed.

(** After a run no record of the sequence matches any more. *)
Lemma mark_result_settled (issues : list loc) (w w' : world) (l : loc) :
  mark_result matches new_status stamp issues w w' →
  l ∈ issues →
  matches (normalized_status (obj (heap w') l)) = false.
Proof.
  intros Hres Hin.
  destruct (matches (normalized_status (obj (heap w) l))) eqn:Hm.
  - destruct (matched_is_mapping _ Hm) as [fields Hx].
    assert (heap w !! l = Some (JObj fields)) as Hl.
    { unfold obj in Hx. destruct (heap w !! l); simpl in Hx; by subst. }
    rewrite Hx in Hm.
    destruct Hres as (_ & _ & _ & _ & _ & _ & Hobjs).
    specialize (Hobjs l). rewrite Hx, decide_True in Hobjs by (split; [done|by rewrite Hm]).
    destruct Hobjs as (n & _ & Hl').
    assert (obj (heap w') l = marked new_status stamp (clock w n) (JObj fields))
      as -> by (unfold obj; by rewrite Hl').
    by rewrite marked_status.
  - unfold obj. rewrite (mark_result_miss issues w w' l Hres) by (by right). done.
Qed.

End Mark.

(** ** The two mutation operations on a sequence held in memory *)

Section Operations.

Context `{codec : JsonCodec}.

Lemma close_body_is_mark :
  close_body = mark_body is_implemented "closed" "closed_at".
Proof. reflexivity. Qed.

Lemma complete_body_is_mark :
  complete_body = mark_body is_open_or_opened "completed" "completed_at".
Proof. reflexivity. Qed.

Lemma close_given_run (issues : list loc) (file_path : option string) (w : world) :
  issue_records (heap w) issues →
  ∃ w', close_implemented_issues (Some issues) file_path w = (Ok issues, w') ∧
        issue_records (heap w') issues ∧
        mark_result is_implemented "closed" "closed_at" issues w w'.
Proof.
  intros Hrec.
  destruct (mark_loop_spec is_implemented "closed" "closed_at"
              ltac:(done) ltac:(done) ltac:(done) ltac:(done) issues w Hrec)
    as (w' & Hrun & Hrec' & Hres).
  exists w'. split; [|done].
  unfold close_implemented_issues. rewrite close_body_is_mark.
  rewrite (bind_ok _ _ w w (issues, false)) by done.
  erewrite bind_ok by exact Hrun. done.
Qed.

Lemma complete_given_run (issues : list loc) (file_path : option string) (w : world) :
  issue_records (heap w) issues →
  ∃ w', complete_open_issues (Some issues) file_path w = (Ok issues, w') ∧
        issue_records (heap w') issues ∧
        mark_result is_open_or_opened "completed" "completed_at" issues w w'.
Proof.
  intros Hrec.
  destruct (mark_loop_spec is_open_or_opened "completed" "completed_at"
              ltac:(done) ltac:(done) ltac:(done) ltac:(done) issues w Hrec)
    as (w' & Hrun & Hrec' & Hres).
  exists w'. split; [|done].
  unfold complete_open_issues. rewrite complete_body_is_mark.
  rewrite (bind_ok _ _ w w (issues, false)) by done.
  erewrite bind_ok by exact Hrun. done.
Qed.

Lemma list_open_given_run (issues : list loc) (file_path : option string) (w : world) :
  issue_records (heap w) issues →
  list_open_issues (Some issues) file_path w =
    (Ok (filter (λ l, normalized_status (obj (heap w) l) ∈ open_statuses) issues), w).
Proof.
  intros Hrec. unfold list_open_issues.
  rewrite (bind_ok _ _ w w issues) by done.
  by rewrite list_open_loop_spec.
Qed.

(** C1.  For a sequence of issue records, [list_open_issues] returns
    exactly the issues, in their original order, whose normalised status
    (the text under [status], falling back to the text under [state],
    lower-cased and trimmed, a missing value counting as the empty text)
    is one of open, opened, todo, backlog, in_progress; the store is
    left as it was. *)
Theorem list_open_issues_selects
    (issues : list loc) (file_path : option string) (w : world) :
  issue_records (heap w) issues →
  list_open_issues (Some issues) file_path w =
    (Ok (filter (λ l, normalized_status (obj (heap w) l)
                        ∈ ["open"; "opened"; "todo"; "backlog"; "in_progress"])
                issues), w).
Proof.
  apply list_open_given_run.
Qed.

(** C2.  After [close_implemented_issues] every issue of the sequence
    whose normalised status was [implemented] has [status] and [state]
    equal to [closed] and has a [closed_at] field: the value it had, or,
    when it had none, a time read from the clock during the call. *)
Theorem close_implemented_issues_closes
    (issues : list loc) (file_path : option string) (w : world) :
  issue_records (heap w) issues →
  ∃ w' : world,
    close_implemented_issues (Some issues) file_path w = (Ok issues, w') ∧
    ∀ (l : loc) (x : json),
      l ∈ issues → heap w !! l = Some x →
      normalized_status x = "implemented" →
      ∃ fields fields' : gmap string json,
        x = JObj fields ∧ heap w' !! l = Some (JObj fields') ∧
        fields' !! "status" = Some (JStr "closed") ∧
        fields' !! "state" = Some (JStr "closed") ∧
        match fields !! "closed_at" with
        | Some v => fields' !! "closed_at" = Some v
        | None => ∃ n, (ticks w ≤ n < ticks w')%nat ∧
                       fields' !! "closed_at" = Some (JStr (clock w n))
        end.
Proof.
  intros Hrec.
  destruct (close_given_run issues file_path w Hrec) as (w' & Hrun & _ & Hres).
  exists w'. split; [done|]. intros l x Hin Hl Hst.
  destruct (mark_result_hit is_implemented "closed" "closed_at"
              ltac:(done) ltac:(done) issues w w' l x Hres Hin Hl)
    as (fields & fields' & Hx & Hl' & Hs1 & Hs2 & Hts & _).
  { unfold is_implemented. by rewrite Hst. }
  by exists fields, fields'.
Qed.

(** C3.  After [complete_open_issues] every issue of the sequence whose
    normalised status was [open] or [opened] has [status] and [state]
    equal to [completed] and has a [completed_at] field, stamped only
    when it had none; an object whose normalised status is anything
    else, [todo], [backlog] and [in_progress] included, is the object
    it was. *)
Theorem complete_open_issues_completes
    (issues : list loc) (file_path : option string) (w : world) :
  issue_records (heap w) issues →
  ∃ w' : world,
    complete_open_issues (Some issues) file_path w = (Ok issues, w') ∧
    (∀ (l : loc) (x : json),
       l ∈ issues → heap w !! l = Some x →
       normalized_status x ∈ ["open"; "opened"] →
       ∃ fields fields' : gmap string json,
         x = JObj fields ∧ heap w' !! l = Some (JObj fields') ∧
         fields' !! "status" = Some (JStr "completed") ∧
         fields' !! "state" = Some (JStr "completed") ∧
         match fields !! "completed_at" with
         | Some v => fields' !! "completed_at" = Some v
         | None => ∃ n, (ticks w ≤ n < ticks w')%nat ∧
                        fields' !! "completed_at" = Some (JStr (clock w n))
         end) ∧
    (∀ (l : loc) (x : json),
       heap w !! l = Some x →
       normalized_status x ∉ ["open"; "opened"] →
       heap w' !! l = Some x) ∧
    (∀ (l : loc) (x : json),
       heap w !! l = Some x →
       normalized_status x ∈ ["todo"; "backlog"; "in_progress"] →
       heap w' !! l = Some x).
Proof.
  intros Hrec.
  destruct (complete_given_run issues file_path w Hrec) as (w' & Hrun & _ & Hres).
  exists w'. split; [done|].
  assert (∀ (l : loc) (x : json),
            heap w !! l = Some x → normalized_status x ∉ ["open"; "opened"] →
            heap w' !! l = Some x) as Hother.
  { intros l x Hl Hst. rewrite <- Hl.
    apply (mark_result_miss is_open_or_opened "completed" "completed_at" issues);
      [done|].
    right. unfold obj. rewrite Hl. simpl. unfold is_open_or_opened.
    by rewrite bool_decide_false. }
  split; [|split; [done|]].
  - intros l x Hin Hl Hst.
    destruct (mark_result_hit is_open_or_opened "completed" "completed_at"
                ltac:(done) ltac:(done) issues w w' l x Hres Hin Hl)
      as (fields & fields' & Hx & Hl' & Hs1 & Hs2 & Hts & _).
    { unfold is_open_or_opened. by rewrite bool_decide_true. }
    by exists fields, fields'.
  - intros l x Hl Hst. apply Hother; [done|].
    intros Hopen. rewrite !elem_of_cons, !elem_of_nil in Hst.
    rewrite !elem_of_cons, !elem_of_nil in Hopen.
    destruct Hopen as [E|[E|[]]]; rewrite E in Hst;
      destruct Hst as [?|[?|[?|[]]]]; discriminate.
Qed.

Lemma close_given_settled (issues : list loc) (file_path : option string) (w : world) :
  issue_records (heap w) issues →
  (∀ l, l ∈ issues → is_implemented (normalized_status (obj (heap w) l)) = false) →
  close_implemented_issues (Some issues) file_path w = (Ok issues, w).
Proof.
  intros Hrec Hno. unfold close_implemented_issues. rewrite close_body_is_mark.
  rewrite (bind_ok _ _ w w (issues, false)) by done.
  erewrite bind_ok; [done|].
  by apply mark_loop_settled.
Qed.

Lemma complete_given_settled (issues : list loc) (file_path : option string) (w : world) :
  issue_records (heap w) issues →
  (∀ l, l ∈ issues → is_open_or_opened (normalized_status (obj (heap w) l)) = false) →
  complete_open_issues (Some issues) file_path w = (Ok issues, w).
Proof.
  intros Hrec Hno. unfold complete_open_issues. rewrite complete_body_is_mark.
  rewrite (bind_ok _ _ w w (issues, false)) by done.
  erewrite bind_ok; [done|].
  by apply mark_loop_settled.
Qed.

(** C4.  Both mutation operations return the sequence they were given
    (same references, same order, same length) and leave the heap with
    the objects it had: an object that is not in the sequence or whose
    status does not match is unchanged, and a matching record differs
    from what it was at most in [status], [state] and its time stamp
    ([closed_at], respectively [completed_at]). *)
Theorem mutations_frame
    (issues : list loc) (file_path : option string) (w : world) :
  issue_records (heap w) issues →
  (∃ w' : world,
     close_implemented_issues (Some issues) file_path w = (Ok issues, w') ∧
     length (heap w') = length (heap w) ∧
     ∀ (l : loc) (x : json),
       heap w !! l = Some x →
       (l ∉ issues ∨ normalized_status x ≠ "implemented" → heap w' !! l = Some x) ∧
       ∃ x', heap w' !! l = Some x' ∧ same_but_status "closed_at" x x') ∧
  (∃ w' : world,
     complete_open_issues (Some issues) file_path w = (Ok issues, w') ∧
     length (heap w') = length (heap w) ∧
     ∀ (l : loc) (x : json),
       heap w !! l = Some x →
       (l ∉ issues ∨ normalized_status x ∉ ["open"; "opened"] → heap w' !! l = Some x) ∧
       ∃ x', heap w' !! l = Some x' ∧ same_but_status "completed_at" x x').
Proof.
  intros Hrec. split.
  - destruct (close_given_run issues file_path w Hrec) as (w' & Hrun & _ & Hres).
    exists w'. split; [done|]. split; [apply Hres|].
    intros l x Hl. split.
    + intros Hno. rewrite <- Hl.
      apply (mark_result_miss is_implemented "closed" "closed_at" issues); [done|].
      destruct Hno as [Hno|Hno]; [by left|right].
      unfold obj. rewrite Hl. simpl. unfold is_implemented.
      by rewrite bool_decide_false.
    + by apply (mark_result_frame is_implemented "closed" "closed_at"
                  ltac:(done) ltac:(done) issues w).
  - destruct (complete_given_run issues file_path w Hrec) as (w' & Hrun & _ & Hres).
    exists w'. split; [done|]. split; [apply Hres|].
    intros l x Hl. split.
    + intros Hno. rewrite <- Hl.
      apply (mark_result_miss is_open_or_opened "completed" "completed_at" issues);
        [done|].
      destruct Hno as [Hno|Hno]; [by left|right].
      unfold obj. rewrite Hl. simpl. unfold is_open_or_opened.
      by rewrite bool_decide_false.
    + by apply (mark_result_frame is_open_or_opened "completed" "completed_at"
                  ltac:(done) ltac:(done) issues w).
Qed.

(** C10.  Both mutation operations are idempotent on a sequence held in
    memory: after a first application no issue of the sequence has the
    normalised status [implemented] (respectively [open] or [opened]),
    and a second application returns the same sequence and leaves the
    whole store, clock included, as the first one left it. *)
Theorem mutations_idempotent
    (issues : list loc) (file_path : option string) (w : world) :
  issue_records (heap w) issues →
  (∃ w' : world,
     close_implemented_issues (Some issues) file_path w = (Ok issues, w') ∧
     (∀ l, l ∈ issues → normalized_status (obj (heap w') l) ≠ "implemented") ∧
     close_implemented_issues (Some issues) file_path w' = (Ok issues, w')) ∧
  (∃ w' : world,
     complete_open_issues (Some issues) file_path w = (Ok issues, w') ∧
     (∀ l, l ∈ issues → normalized_status (obj (heap w') l) ∉ ["open"; "opened"]) ∧
     complete_open_issues (Some issues) file_path w' = (Ok issues, w')).
Proof.
  intros Hrec. split.
  - destruct (close_given_run issues file_path w Hrec) as (w' & Hrun & Hrec' & Hres).
    assert (∀ l, l ∈ issues →
              is_implemented (normalized_status (obj (heap w') l)) = false) as Hno.
    { intros l Hin.
      by apply (mark_result_settled is_implemented "closed" "closed_at"
                  ltac:(done) ltac:(done) ltac:(done) ltac:(done) issues w). }
    exists w'. split; [done|]. split; [|by apply close_given_settled].
    intros l Hin E. specialize (Hno l Hin). unfold is_implemented in Hno.
    by rewrite bool_decide_true in Hno.
  - destruct (complete_given_run issues file_path w Hrec) as (w' & Hrun & Hrec' & Hres).
    assert (∀ l, l ∈ issues →
              is_open_or_opened (normalized_status (obj (heap w') l)) = false) as Hno.
    { intros l Hin.
      by apply (mark_result_settled is_open_or_opened "completed" "completed_at"
                  ltac:(done) ltac:(done) ltac:(done) ltac:(done) issues w). }
    exists w'. split; [done|]. split; [|by apply complete_given_settled].
    intros l Hin E. specialize (Hno l Hin). unfold is_open_or_opened in Hno.
    by rewrite bool_decide_true in Hno.
Qed.

(** With a status text that is not empty, the normalised status is that
    text, whatever [state] holds. *)
Lemma normalized_status_of_status (fields : gmap string json) (s : string) :
  fields !! "status" = Some (JStr s) →
  Text.lower (Text.strip s) ≠ "" →
  normalized_status (JObj fields) = Text.lower (Text.strip s).
Proof.
  intros E Hne. unfold normalized_status, field_text. rewrite E.
  by rewrite bool_decide_false.
Qed.

(** C9.  In the three operations the [state] key is consulted only when
    [status] is missing or normalises to the empty text.  For an issue
    whose [status] normalises to a text [t] that is not empty, whatever
    its other fields ([state] included) hold: it is listed as open
    exactly when [t] is an open status, it is closed exactly when [t]
    is [implemented], and completed exactly when [t] is [open] or
    [opened]; otherwise it is the record it was. *)
Theorem state_ignored_when_status_given
    (issues : list loc) (file_path : option string) (w : world)
    (l : loc) (fields : gmap string json) (s : string) :
  issue_records (heap w) issues →
  l ∈ issues → heap w !! l = Some (JObj fields) →
  fields !! "status" = Some (JStr s) →
  Text.lower (Text.strip s) ≠ "" →
  (∃ found : list loc,
     list_open_issues (Some issues) file_path w = (Ok found, w) ∧
     (l ∈ found ↔
      Text.lower (Text.strip s) ∈ ["open"; "opened"; "todo"; "backlog"; "in_progress"])) ∧
  (∃ w' : world,
     close_implemented_issues (Some issues) file_path w = (Ok issues, w') ∧
     (Text.lower (Text.strip s) ≠ "implemented" → heap w' !! l = Some (JObj fields)) ∧
     (Text.lower (Text.strip s) = "implemented" →
      ∃ fields', heap w' !! l = Some (JObj fields') ∧
                 fields' !! "status" = Some (JStr "closed"))) ∧
  (∃ w' : world,
     complete_open_issues (Some issues) file_path w = (Ok issues, w') ∧
     (Text.lower (Text.strip s) ∉ ["open"; "opened"] → heap w' !! l = Some (JObj fields)) ∧
     (Text.lower (Text.strip s) ∈ ["open"; "opened"] →
      ∃ fields', heap w' !! l = Some (JObj fields') ∧
                 fields' !! "status" = Some (JStr "completed"))).
Proof.
  intros Hrec Hin Hl Hs Hne.
  pose proof (normalized_status_of_status fields s Hs Hne) as Hn.
  assert (obj (heap w) l = JObj fields) as Hobj by (unfold obj; by rewrite Hl).
  split; [|split].
  - eexists. split; [by apply list_open_given_run|].
    rewrite list_elem_of_filter, Hobj, Hn. unfold open_statuses.
  split; [by intros [? _]|by intros ?].
  - destruct (close_given_run issues file_path w Hrec) as (w' & Hrun & _ & Hres).
    exists w'. split; [done|]. split.
    + intros Hno. rewrite <- Hl.
      apply (mark_result_miss is_implemented "closed" "closed_at" issues); [done|].
      right. rewrite Hobj, Hn. unfold is_implemented. by rewrite bool_decide_false.
    + intros Hyes.
      destruct (mark_result_hit is_implemented "closed" "closed_at"
                  ltac:(done) ltac:(done) issues w w' l _ Hres Hin Hl)
        as (f & f' & _ & ? & ? & _).
      { rewrite Hn. unfold is_implemented. by rewrite bool_decide_true. }
      by exists f'.
  - destruct (complete_given_run issues file_path w Hrec) as (w' & Hrun & _ & Hres).
    exists w'. split; [done|]. split.
    + intros Hno. rewrite <- Hl.
      apply (mark_result_miss is_open_or_opened "completed" "completed_at" issues);
        [done|].
      right. rewrite Hobj, Hn. unfold is_open_or_opened. by rewrite bool_decide_false.
    + intros Hyes.
      destruct (mark_result_hit is_open_or_opened "completed" "completed_at"
                  ltac:(done) ltac:(done) issues w w' l _ Hres Hin Hl)
        as (f & f' & _ & ? & ? & _).
      { rewrite Hn. unfold is_open_or_opened. by rewrite bool_decide_true. }
      by exists f'.
Qed.

End Operations.

(** ** Loading and saving *)

Lemma obj_alloc (items : list json) : ∀ h : list json,
  map (obj (h ++ items)) (seq (length h) (length items)) = items.
Proof.
  induction items as [|x items IH]; intros h; [done|]. simpl. f_equal.
  - unfold obj. by rewrite list_lookup_middle.
  - specialize (IH (h ++ [x])). rewrite <- app_assoc, length_app in IH. simpl in IH.
    by rewrite Nat.add_1_r in IH.
Qed.

Lemma load_loop_spec (data : list loc) : ∀ (normalised : list loc) (w : world),
  load_loop data normalised w =
    (if forallb is_mapping (map (obj (heap w)) data)
     then Ok (normalised ++ data) else Raise ValueError, w).
Proof.
  induction data as [|item rest IH]; intros normalised w; simpl.
  { by rewrite app_nil_r. }
  rewrite (bind_ok _ _ w w (obj (heap w) item)) by done.
  destruct (is_mapping (obj (heap w) item)); simpl; [|done].
  rewrite IH. by rewrite <- app_assoc.
Qed.

Section Files.

Context `{codec : JsonCodec}.

(** [load_issues], case by case. *)
Lemma load_issues_run (file_path : option string) (w : world) :
  load_issues file_path w =
    match find_issues_file_in (fs w) (environ w) (module_root w)
                              file_path None DEFAULT_ISSUE_FILE_CANDIDATES with
    | Raise e => (Raise e, w)
    | Ok p =>
        match FS.walk (fs w) p with
        | None => (Raise FileNotFoundError, w)
        | Some (Dir _) => (Raise IsADirectoryError, w)
        | Some (File text) =>
            match json_load text with
            | None => (Raise JSONDecodeError, w)
            | Some (JArr items) =>
                (if forallb is_mapping items
                 then Ok (seq (length (heap w)) (length items))
                 else Raise ValueError,
                 set_heap (heap w ++ items) w)
            | Some _ => (Raise ValueError, w)
            end
        end
    end.
Proof.
  unfold load_issues, find_issues_file, lift, read_text, lift.
  destruct (find_issues_file_in _ _ _ _ _ _) as [p|e] eqn:Hfind.
  2: { erewrite bind_raise; [done|]. by rewrite Hfind. }
  erewrite bind_ok by (by rewrite Hfind).
  destruct (FS.walk (fs w) p) as [[text|es]|] eqn:Hwalk.
  2, 3: erewrite bind_raise; [done|by rewrite Hwalk].
  erewrite bind_ok by (by rewrite Hwalk).
  destruct (json_load text) as [v|]; [|done].
  destruct v as [| | | | |items|]; try done.
  erewrite bind_ok by done.
  rewrite load_loop_spec. simpl. by rewrite obj_alloc.
Qed.

Lemma save_issues_run (issues : list loc) (file_path : option string) (w : world)
    (p : path) (old : string) :
  find_issues_file_in (fs w) (environ w) (module_root w)
                      file_path None DEFAULT_ISSUE_FILE_CANDIDATES = Ok p →
  FS.walk (fs w) p = Some (File old) →
  save_issues issues file_path w =
    (Ok p, set_fs (FS.write (fs w) p
                     (json_dump (JArr (map (obj (heap w)) issues))
                      +:+ String "010"%char EmptyString)) w).
Proof.
  intros Hfind Hwalk. unfold save_issues, find_issues_file, lift.
  erewrite bind_ok by (by rewrite Hfind).
  erewrite bind_ok by done.
  unfold write_text.
  erewrite bind_ok; [done|]. by rewrite Hwalk.
Qed.

(** A mutation operation that loads the issues itself: the loop runs
    on the loaded records and the result is written to the file that
    was read. *)
Lemma mark_from_file_run
    (matches : string → bool) (new_status stamp : string)
    (operation : option (list loc) → option string → M (list loc))
    (file_path : option string) (w : world)
    (p : path) (text : string) (items : list json) :
  Text.lower (Text.strip new_status) ≠ "" →
  matches (Text.lower (Text.strip new_status)) = false →
  matches "" = false →
  stamp ≠ "status" ∧ stamp ≠ "state" →
  (∀ w0, operation None file_path w0 =
         (issues ← load_issues file_path;
          for_each (mark_body matches new_status stamp) issues ;;
          (save_issues issues file_path ;; mret tt) ;;
          mret issues) w0) →
  find_issues_file_in (fs w) (environ w) (module_root w)
                      file_path None DEFAULT_ISSUE_FILE_CANDIDATES = Ok p →
  FS.walk (fs w) p = Some (File text) →
  json_load text = Some (JArr items) →
  Forall (λ x, Is_true (is_mapping x && status_readable x)) items →
  ∃ (issues : list loc) (w1 w2 : world),
    load_issues file_path w = (Ok issues, w1) ∧
    map (obj (heap w1)) issues = items ∧
    mark_result matches new_status stamp issues w1 w2 ∧
    operation None file_path w =
      (Ok issues,
       set_fs (FS.write (fs w) p
                 (json_dump (JArr (map (obj (heap w2)) issues))
                  +:+ String "010"%char EmptyString)) w2).
Proof.
  intros H1 H2 H3 H4 Hop Hfind Hwalk Hload Hitems.
  set (issues := seq (length (heap w)) (length items)).
  set (w1 := set_heap (heap w ++ items) w).
  assert (load_issues file_path w = (Ok issues, w1)) as Hrun.
  { rewrite load_issues_run, Hfind, Hwalk, Hload.
    assert (forallb is_mapping items = true) as ->; [|done].
    apply Is_true_true, forallb_True.
    eapply Forall_impl; [exact Hitems|]. by intros x [? _]%andb_prop_elim. }
  assert (map (obj (heap w1)) issues = items) as Hobjs by apply obj_alloc.
  assert (issue_records (heap w1) issues) as Hrec.
  { unfold issue_records.
    apply (Forall_fmap (obj (heap w1)) (λ x, Is_true (status_readable x))).
    change (fmap (obj (heap w1)) issues) with (map (obj (heap w1)) issues).
    rewrite Hobjs.
    eapply Forall_impl; [exact Hitems|]. by intros x [_ ?]%andb_prop_elim. }
  destruct (mark_loop_spec matches new_status stamp H1 H2 H3 H4 issues w1 Hrec)
    as (w2 & Hloop & _ & Hres).
  exists issues, w1, w2. repeat split; try done; try apply Hres.
  destruct Hres as (Hfs & Henv & Hroot & _).
  rewrite Hop.
  erewrite bind_ok by exact Hrun.
  erewrite bind_ok by exact Hloop.
  erewrite (bind_ok _ _ w2 _ tt); [done|].
  erewrite bind_ok; [done|].
  rewrite (save_issues_run issues file_path w2 p text).
  - by rewrite Hfs.
  - by rewrite Hfs, Henv, Hroot.
  - by rewrite Hfs.
Qed.

Lemma close_from_file_unfold (file_path : option string) (w0 : world) :
  close_implemented_issues None file_path w0 =
    (issues ← load_issues file_path;
     for_each (mark_body is_implemented "closed" "closed_at") issues ;;
     (save_issues issues file_path ;; mret tt) ;;
     mret issues) w0.
Proof.
  unfold close_implemented_issues. unfold mbind at 1 6, M_bind.
  unfold mbind at 1, M_bind. by destruct (load_issues file_path w0) as [[]].
Qed.

Lemma complete_from_file_unfold (file_path : option string) (w0 : world) :
  complete_open_issues None file_path w0 =
    (issues ← load_issues file_path;
     for_each (mark_body is_open_or_opened "completed" "completed_at") issues ;;
     (save_issues issues file_path ;; mret tt) ;;
     mret issues) w0.
Proof.
  unfold complete_open_issues. unfold mbind at 1 6, M_bind.
  unfold mbind at 1, M_bind. by destruct (load_issues file_path w0) as [[]].
Qed.

Lemma keeps_fs_given (issues : list loc) (file_path : option string) :
  keeps_fs (close_implemented_issues (Some issues) file_path) ∧
  keeps_fs (complete_open_issues (Some issues) file_path).
Proof.
  split; intros w.
  - unfold close_implemented_issues. rewrite close_body_is_mark.
    rewrite (bind_ok _ _ w w (issues, false)) by done.
    apply keeps_fs_bind.
    + apply keeps_fs_for_each. intros l. apply keeps_fs_mark_body.
    + intros _. apply keeps_fs_bind; intros; apply keeps_fs_ret.
  - unfold complete_open_issues. rewrite complete_body_is_mark.
    rewrite (bind_ok _ _ w w (issues, false)) by done.
    apply keeps_fs_bind.
    + apply keeps_fs_for_each. intros l. apply keeps_fs_mark_body.
    + intros _. apply keeps_fs_bind; intros; apply keeps_fs_ret.
Qed.

(** C5.  Each mutation operation writes the updated sequence back to
    the issues file exactly when the caller supplied no sequence.  With
    a sequence supplied the file system is left as it was, whatever the
    outcome; with none, and an issues file that holds a list of issue
    records, the file that was read is rewritten with the records as
    the operation returns them. *)
Theorem persists_iff_not_supplied (file_path : option string) (w : world) :
  (∀ issues : list loc,
     fs (close_implemented_issues (Some issues) file_path w).2 = fs w ∧
     fs (complete_open_issues (Some issues) file_path w).2 = fs w) ∧
  (∀ (p : path) (text : string) (items : list json),
     find_issues_file_in (fs w) (environ w) (module_root w)
                         file_path None DEFAULT_ISSUE_FILE_CANDIDATES = Ok p →
     FS.walk (fs w) p = Some (File text) →
     json_load text = Some (JArr items) →
     Forall (λ x, Is_true (is_mapping x && status_readable x)) items →
     (∃ (issues : list loc) (w' : world),
        close_implemented_issues None file_path w = (Ok issues, w') ∧
        fs w' = FS.write (fs w) p
                  (json_dump (JArr (map (obj (heap w')) issues))
                   +:+ String "010"%char EmptyString)) ∧
     (∃ (issues : list loc) (w' : world),
        complete_open_issues None file_path w = (Ok issues, w') ∧
        fs w' = FS.write (fs w) p
                  (json_dump (JArr (map (obj (heap w')) issues))
                   +:+ String "010"%char EmptyString))).
Proof.
  split.
  - intros issues. destruct (keeps_fs_given issues file_path) as [Hc Ho].
    split; [apply Hc|apply Ho].
  - intros p text items Hfind Hwalk Hload Hitems. split.
    + destruct (mark_from_file_run is_implemented "closed" "closed_at"
                  close_implemented_issues file_path w p text items)
        as (issues & w1 & w2 & _ & _ & _ & Hrun); try done.
      { apply close_from_file_unfold. }
      eexists issues, _. split; [exact Hrun|done].
    + destruct (mark_from_file_run is_open_or_opened "completed" "completed_at"
                  complete_open_issues file_path w p text items)
        as (issues & w1 & w2 & _ & _ & _ & Hrun); try done.
      { apply complete_from_file_unfold. }
      eexists issues, _. split; [exact Hrun|done].
Qed.

(** C6.  Saving a sequence of issue records with [save_issues] and
    loading it again with [load_issues] from the same path yields a
    sequence equal to the original: the same records, field by field, in
    the same order.  The issues file has to exist ([save_issues] does not
    create it), and [json.load] has to read back what [json.dump] wrote
    for this list. *)
Theorem save_then_load_round_trip
    (issues : list loc) (file_path : option string) (w : world) (p : path) :
  find_issues_file_in (fs w) (environ w) (module_root w)
                      file_path None DEFAULT_ISSUE_FILE_CANDIDATES = Ok p →
  FS.is_file (fs w) p = true →
  Forall (λ l, Is_true (is_mapping (obj (heap w) l))) issues →
  json_load (json_dump (JArr (map (obj (heap w)) issues))
             +:+ String "010"%char EmptyString)
    = Some (JArr (map (obj (heap w)) issues)) →
  ∃ (w1 w2 : world) (loaded : list loc),
    save_issues issues file_path w = (Ok p, w1) ∧
    load_issues file_path w1 = (Ok loaded, w2) ∧
    map (obj (heap w2)) loaded = map (obj (heap w)) issues ∧
    map (obj (heap w2)) issues = map (obj (heap w)) issues.
Proof.
  intros Hfind Hfile Hmaps Hcodec.
  assert (∃ old, FS.walk (fs w) p = Some (File old)) as [old Hwalk].
  { unfold FS.is_file in Hfile. destruct (FS.walk (fs w) p) as [[old|]|]; eauto; done. }
  set (values := map (obj (heap w)) issues) in *.
  set (text := json_dump (JArr values) +:+ String "010"%char EmptyString) in *.
  set (w1 := set_fs (FS.write (fs w) p text) w).
  set (w2 := set_heap (heap w1 ++ values) w1).
  exists w1, w2, (seq (length (heap w1)) (length values)).
  split; [by eapply save_issues_run|].
  assert (forallb is_mapping values = true) as Hall.
  { apply Is_true_true, forallb_True. unfold values.
    by apply (Forall_fmap (obj (heap w)) (λ x, Is_true (is_mapping x))). }
  split; [|split].
  - rewrite load_issues_run. simpl.
    rewrite find_issues_file_in_write, Hfind.
    rewrite walk_write_same by done.
    by rewrite Hcodec, Hall.
  - apply obj_alloc.
  - apply map_ext_Forall. eapply Forall_impl; [exact Hmaps|].
    intros l Hl. simpl. unfold obj in *.
    destruct (heap w !! l) as [x|] eqn:E; [|done].
    by erewrite lookup_app_l_Some.
Qed.

(** C7.  Once the issues file has been found, read and parsed,
    [load_issues] raises [ValueError] exactly when the parsed content is
    not a list or some element of the list is not an object; when it is
    a list of objects, [load_issues] returns references to exactly
    these records, in order, and every object that was in the heap is
    still there unchanged. *)
Theorem load_issues_format
    (file_path : option string) (w : world) (p : path) (text : string) (v : json) :
  find_issues_file_in (fs w) (environ w) (module_root w)
                      file_path None DEFAULT_ISSUE_FILE_CANDIDATES = Ok p →
  FS.walk (fs w) p = Some (File text) →
  json_load text = Some v →
  ((load_issues file_path w).1 = Raise ValueError ↔ ¬ list_of_objects v) ∧
  (∀ items : list json,
     v = JArr items → Forall (λ x, Is_true (is_mapping x)) items →
     ∃ (loaded : list loc) (w' : world),
       load_issues file_path w = (Ok loaded, w') ∧
       map (obj (heap w')) loaded = items ∧
       fs w' = fs w ∧
       ∀ (l : loc) (x : json), heap w !! l = Some x → heap w' !! l = Some x).
Proof.
  intros Hfind Hwalk Hload.
  rewrite load_issues_run, Hfind, Hwalk, Hload.
  split.
  - unfold list_of_objects. destruct v as [| | | | |items|];
      try (split; [intros _ (items & ? & _); done|done]).
    destruct (forallb is_mapping items) eqn:Hall; simpl.
    + split; [done|]. intros Hno. destruct Hno. exists items. split; [done|].
      by apply forallb_True, Is_true_true.
    + split; [|done]. intros _ (items' & [= <-] & Hall').
      apply forallb_True, Is_true_true in Hall'. congruence.
  - intros items -> Hall.
    apply forallb_True, Is_true_true in Hall. rewrite Hall.
    eexists _, _. split; [done|]. split; [apply obj_alloc|]. split; [done|].
    intros l x Hl. simpl. by apply lookup_app_l_Some.
Qed.

End Files.

(** ** Locating the issues file *)

(** An explicit path decides alone: the environment and the candidates
    are not looked at. *)
Lemma find_explicit (tree : node) (env : gmap string string) (default_root : path)
    (explicit_path : string) (search_root : option string) (candidates : list string) :
  find_issues_file_in tree env default_root (Some explicit_path) search_root candidates
  = if FS.is_file tree (FS.Path explicit_path) then Ok (FS.Path explicit_path)
    else Raise FileNotFoundError.
Proof. reflexivity. Qed.

(** Without an explicit path, the environment variable wins when it names
    a regular file. *)
Lemma find_env (tree : node) (env : gmap string string) (default_root : path)
    (env_path : string) (search_root : option string) (candidates : list string) :
  env !! "GIT_ISSUES_FILE" = Some env_path →
  env_path ≠ "" →
  FS.is_file tree (FS.Path env_path) = true →
  find_issues_file_in tree env default_root None search_root candidates
  = Ok (FS.Path env_path).
Proof.
  intros Henv Hne Hfile. unfold find_issues_file_in. rewrite Henv, Hfile.
  by rewrite bool_decide_true.
Qed.

(** Otherwise the candidates are tried in the search root, then in its
    [.git] directory, then the scan decides. *)
Lemma find_search (tree : node) (env : gmap string string) (default_root : path)
    (search_root : option string) (candidates : list string) :
  (∀ env_path, env !! "GIT_ISSUES_FILE" = Some env_path →
               FS.is_file tree (FS.Path env_path) = false) →
  let root_path := match search_root with
                   | None => default_root
                   | Some r => FS.Path r
                   end in
  find_issues_file_in tree env default_root None search_root candidates
  = match first_candidate_file tree root_path candidates with
    | Some p => Ok p
    | None =>
        match (if FS.exists_ tree (root_path ++ [".git"])
               then first_candidate_file tree (root_path ++ [".git"]) candidates
               else None) with
        | Some p => Ok p
        | None =>
            match first_named candidates
                    (match FS.walk tree root_path with
                     | Some n => FS.rglob_json root_path n
                     | None => []
                     end) with
            | Some p => Ok p
            | None => Raise FileNotFoundError
            end
        end
    end.
Proof.
  intros Henv. unfold find_issues_file_in.
  destruct (env !! "GIT_ISSUES_FILE") as [env_path|]; [|done].
  rewrite (Henv env_path) by done. by rewrite andb_false_r.
Qed.

(** C8.  The scan of [find_issues_file] is not shallow.  In a repository
    whose only issues file lies four directories below the search root,
    with no explicit path, no environment variable, no candidate in the
    root and no [.git] directory, the function returns that file, where a
    scan of at most two directory levels finds nothing and the function
    would raise [FileNotFoundError]. *)
Theorem find_issues_file_scans_without_bound :
  find_issues_file_in Fixture.deep_tree ∅ [] None None DEFAULT_ISSUE_FILE_CANDIDATES
    = Ok ["a"; "b"; "c"; "d"; "issues.json"] ∧
  first_named DEFAULT_ISSUE_FILE_CANDIDATES
    (rglob_json_within 2 [] Fixture.deep_tree) = None.
Proof. split; vm_compute; reflexivity. Qed.

(** The scan does not ask for a regular file either, as the earlier steps
    do: a directory that bears the name of a candidate is returned, and
    opening it fails. *)
Lemma find_issues_file_returns_directory :
  find_issues_file_in Fixture.tree_with_directory ∅ [] None None
                      DEFAULT_ISSUE_FILE_CANDIDATES = Ok ["sub"; "issues.json"] ∧
  FS.is_file Fixture.tree_with_directory ["sub"; "issues.json"] = false.
Proof. split; vm_compute; reflexivity. Qed.

(** ** Normalising a status text *)

Lemma lower_char_idem (c : ascii) :
  Text.lower_char (Text.lower_char c) = Text.lower_char c.
Proof. destruct c as [[] [] [] [] [] [] [] []]; reflexivity. Qed.

Lemma is_space_lower_char (c : ascii) :
  Text.is_space (Text.lower_char c) = Text.is_space c.
Proof. destruct c as [[] [] [] [] [] [] [] []]; reflexivity. Qed.

Lemma lower_idem (s : string) : Text.lower (Text.lower s) = Text.lower s.
Proof. induction s as [|c s IH]; simpl; [done|]. by rewrite lower_char_idem, IH. Qed.

Lemma lstrip_lower (s : string) :
  Text.lstrip (Text.lower s) = Text.lower (Text.lstrip s).
Proof.
  induction s as [|c s IH]; simpl; [done|].
  rewrite is_space_lower_char. by destruct (Text.is_space c).
Qed.

Lemma rstrip_lower (s : string) :
  Text.rstrip (Text.lower s) = Text.lower (Text.rstrip s).
Proof.
  induction s as [|c s IH]; simpl; [done|].
  rewrite IH, is_space_lower_char.
  destruct (Text.rstrip s); simpl; [by destruct (Text.is_space c)|done].
Qed.

Lemma strip_lower (s : string) :
  Text.strip (Text.lower s) = Text.lower (Text.strip s).
Proof. unfold Text.strip. by rewrite lstrip_lower, rstrip_lower. Qed.

Lemma rstrip_idem (s : string) : Text.rstrip (Text.rstrip s) = Text.rstrip s.
Proof.
  induction s as [|c s IH]; simpl; [done|].
  destruct (Text.rstrip s) as [|c' r] eqn:E.
  - destruct (Text.is_space c) eqn:Hc; simpl; [done|]. by rewrite Hc.
  - change (Text.rstrip (String c (String c' r))) with
      (match Text.rstrip (String c' r) with
       | EmptyString => if Text.is_space c then EmptyString else String c EmptyString
       | r' => String c r'
       end).
    by rewrite IH.
Qed.

(** A text that does not begin with white space. *)
Lemma lstrip_fixed (s : string) :
  match s with
  | EmptyString => True
  | String c _ => Text.is_space c = false
  end →
  Text.lstrip s = s.
Proof. destruct s as [|c s]; simpl; [done|]. by intros ->. Qed.

Lemma lstrip_head (s : string) :
  match Text.lstrip s with
  | EmptyString => True
  | String c _ => Text.is_space c = false
  end.
Proof.
  induction s as [|c s IH]; simpl; [done|].
  destruct (Text.is_space c) eqn:Hc; [done|]. simpl. done.
Qed.

Lemma rstrip_head (s : string) :
  match s with
  | EmptyString => True
  | String c _ => Text.is_space c = false
  end →
  match Text.rstrip s with
  | EmptyString => True
  | String c _ => Text.is_space c = false
  end.
Proof.
  destruct s as [|c s]; simpl; [done|]. intros Hc.
  destruct (Text.rstrip s); by rewrite ?Hc.
Qed.

Lemma strip_idem (s : string) : Text.strip (Text.strip s) = Text.strip s.
Proof.
  unfold Text.strip.
  rewrite (lstrip_fixed (Text.rstrip (Text.lstrip s))).
  - apply rstrip_idem.
  - apply rstrip_head, lstrip_head.
Qed.

Lemma lstrip_app_blank (a s : string) :
  blank a → Text.lstrip (a +:+ s) = Text.lstrip s.
Proof.
  induction a as [|c a IH]; simpl; [done|].
  intros [Hc Ha]%andb_prop_elim. destruct (Text.is_space c); [by apply IH|done].
Qed.

Lemma rstrip_blank (b : string) : blank b → Text.rstrip b = "".
Proof.
  induction b as [|c b IH]; simpl; [done|].
  intros [Hc Hb]%andb_prop_elim. rewrite IH by done.
  by destruct (Text.is_space c).
Qed.

Lemma rstrip_app_blank (s b : string) :
  blank b → Text.rstrip (s +:+ b) = Text.rstrip s.
Proof.
  intros Hb. induction s as [|c s IH]; simpl; [by apply rstrip_blank|].
  by rewrite IH.
Qed.

Lemma strip_app_blank_r (s b : string) :
  blank b → Text.strip (s +:+ b) = Text.strip s.
Proof.
  intros Hb. unfold Text.strip. induction s as [|c s IH]; simpl.
  - change (Text.rstrip (Text.lstrip b) = "").
    assert (Text.lstrip b = "") as ->; [|done].
    clear -Hb. induction b as [|c b IH]; simpl; [done|].
    apply andb_prop_elim in Hb as [Hc Hb]. destruct (Text.is_space c); [by apply IH|done].
  - destruct (Text.is_space c); [done|].
    by apply (rstrip_app_blank (String c s)).
Qed.

Lemma strip_app_blank_l (a s : string) :
  blank a → Text.strip (a +:+ s) = Text.strip s.
Proof. intros Ha. unfold Text.strip. by rewrite lstrip_app_blank. Qed.

(** X1.  [_normalise_status] is idempotent: a status that has been normalised
    normalises to itself. *)
Theorem normalise_status_idempotent (s : string) (w : world) :
  _normalise_status (JStr (Text.lower (Text.strip s))) w
  = _normalise_status (JStr s) w.
Proof.
  simpl. by rewrite <- strip_lower, lower_idem, strip_lower, strip_idem.
Qed.

(** X2.  [_normalise_status] does not see case nor surrounding white space:
    two texts that agree up to case, one of them padded with white space
    on either side, normalise to the same status. *)
Theorem normalise_status_insensitive (before s1 s2 after : string) (w : world) :
  Text.lower s1 = Text.lower s2 →
  blank before → blank after →
  _normalise_status (JStr (before +:+ s1 +:+ after)) w
  = _normalise_status (JStr s2) w.
Proof.
  intros Hcase Hb Ha. simpl.
  rewrite strip_app_blank_l, strip_app_blank_r by done.
  by rewrite <- !strip_lower, Hcase.
Qed.

(** ** More on locating the issues file *)

Lemma eqb_string_eq (a b : string) : String.eqb a b = true ↔ a = b.
Proof. apply String.eqb_eq. Qed.

Lemma entry_Some_elem (name : string) (es : list (string * node)) (x : node) :
  FS.entry name es = Some x → (name, x) ∈ es.
Proof.
  induction es as [|[n y] es IH]; simpl; [done|].
  destruct (String.eqb n name) eqn:E.
  - intros [= ->]. apply String.eqb_eq in E as ->. apply elem_of_cons. by left.
  - intros H. apply elem_of_cons. right. by apply IH.
Qed.

Lemma entry_of_name (name : string) (es : list (string * node)) :
  name ∈ map fst es → is_Some (FS.entry name es).
Proof.
  induction es as [|[n y] es IH]; simpl.
  { intros H. by apply elem_of_nil in H. }
  intros H. destruct (String.eqb n name) eqn:E; [by eexists|].
  apply IH. apply elem_of_cons in H as [->|H]; [|done].
  by rewrite String.eqb_refl in E.
Qed.

Lemma entry_unique (name : string) (x : node) (es : list (string * node)) :
  NoDup (map fst es) → (name, x) ∈ es → FS.entry name es = Some x.
Proof.
  induction es as [|[n y] es IH]; simpl.
  { intros _ H. by apply elem_of_nil in H. }
  intros Hnd Hin. apply NoDup_cons in Hnd as [Hn Hnd].
  apply elem_of_cons in Hin as [[= -> ->]|Hin].
  - by rewrite String.eqb_refl.
  - destruct (String.eqb n name) eqn:E; [|by apply IH].
    apply String.eqb_eq in E as ->. destruct Hn.
    change name with (fst (name, x)). apply list_elem_of_fmap_2. done.
Qed.

Lemma unique_names_dir (es : list (string * node)) :
  unique_names (Dir es) →
  NoDup (map fst es) ∧ Forall (λ e, Is_true (unique_names e.2)) es.
Proof.
  simpl. intros [Hnd Hall]%andb_prop_elim. split; [by apply bool_decide_unpack in Hnd|].
  clear Hnd. induction es as [|[n x] es IH]; [by apply Forall_nil|].
  apply andb_prop_elim in Hall as [Hx Hall].
  apply Forall_cons. split; [done|by apply IH].
Qed.

Lemma walk_app (p q : path) : ∀ n : node,
  FS.walk n (p ++ q) = FS.walk n p ≫= λ x, FS.walk x q.
Proof.
  induction p as [|c p IH]; intros n; [done|].
  destruct n as [t|es]; [done|]. simpl.
  destruct (FS.entry c es); [apply IH|done].
Qed.

Lemma walk_unique_names (p : path) : ∀ n x : node,
  unique_names n → FS.walk n p = Some x → unique_names x.
Proof.
  induction p as [|c p IH]; intros n x Hn; simpl.
  { by intros [= <-]. }
  destruct n as [t|es]; [done|].
  destruct (FS.entry c es) as [y|] eqn:E; [|done].
  apply IH. apply unique_names_dir in Hn as [_ Hall].
  apply entry_Some_elem in E.
  by apply (proj1 (Forall_forall _ _) Hall (c, y)).
Qed.

(** Every path of the scan names an entry that exists, and its name ends
    in [.json]. *)
Lemma rglob_json_sound (n : node) : ∀ (here p : path),
  unique_names n → p ∈ FS.rglob_json here n →
  ∃ q, p = here ++ q ∧ is_Some (FS.walk n q) ∧
       Text.ends_with ".json" (FS.name p) = true.
Proof.
  induction n as [text|es IH] using node_nested_ind; intros here p Hn; simpl.
  { intros H. by apply elem_of_nil in H. }
  apply unique_names_dir in Hn as [Hnd Hall].
  intros [Hin|Hin]%elem_of_app.
  - unfold FS.matches_here in Hin.
    apply list_elem_of_fmap in Hin as ([name x] & -> & Hin).
    apply list_elem_of_filter in Hin as [Hjson Hin]. simpl in *.
    exists [name]. split; [done|]. split.
    + simpl. destruct (entry_of_name name es) as [y ->]; [|by eexists].
      change name with (fst (name, x)). by apply list_elem_of_fmap_2.
    + unfold FS.name. rewrite last_last. by apply Is_true_true.
  - assert (∃ name x, (name, x) ∈ es ∧ p ∈ FS.rglob_json (here ++ [name]) x)
      as (name & x & Hex & Hp).
    { clear -Hin. induction es as [|[name x] es IHes]; simpl in Hin.
      - by apply elem_of_nil in Hin.
      - apply elem_of_app in Hin as [Hin|Hin].
        + exists name, x. split; [apply elem_of_cons; by left|done].
        + destruct (IHes Hin) as (name' & x' & ? & ?).
          exists name', x'. split; [apply elem_of_cons; by right|done]. }
    pose proof (proj1 (Forall_forall _ _) IH (name, x) Hex) as IHx.
    pose proof (proj1 (Forall_forall _ _) Hall (name, x) Hex) as Hx.
    destruct (IHx (here ++ [name]) p Hx Hp) as (q & -> & Hq & Hjson).
    exists (name :: q). split; [by rewrite <- app_assoc|]. split; [|done].
    simpl. by rewrite (entry_unique name x es).
Qed.

(** Every entry below the starting point whose name ends in [.json] is in
    the scan, however deep it lies. *)
Lemma rglob_json_complete (q : path) : ∀ (n x : node) (here : path),
  q ≠ [] → FS.walk n q = Some x →
  Text.ends_with ".json" (FS.name q) = true →
  here ++ q ∈ FS.rglob_json here n.
Proof.
  induction q as [|c q IH]; intros n x here Hne Hwalk Hjson; [done|].
  destruct n as [t|es]; [done|]. simpl in Hwalk.
  destruct (FS.entry c es) as [y|] eqn:E; [|done].
  apply entry_Some_elem in E. simpl. apply elem_of_app.
  destruct q as [|d q].
  - left. unfold FS.matches_here.
    apply (list_elem_of_fmap_2 (λ e, here ++ [e.1]) _ (c, y)).
    apply list_elem_of_filter. split; [by apply Is_true_true|done].
  - right.
    assert (here ++ c :: d :: q ∈ FS.rglob_json (here ++ [c]) y) as Hin.
    { replace (here ++ c :: d :: q) with ((here ++ [c]) ++ d :: q)
        by by rewrite <- app_assoc.
      by apply (IH y x). }
    clear -E Hin. induction es as [|[name z] es IHes].
    + by apply elem_of_nil in E.
    + apply elem_of_app. apply elem_of_cons in E as [[= <- <-]|E]; [by left|].
      right. by apply IHes.
Qed.

Lemma first_candidate_file_Some (tree : node) (dir : path)
    (candidates : list string) (p : path) :
  first_candidate_file tree dir candidates = Some p →
  ∃ before c after,
    candidates = before ++ c :: after ∧ p = dir ++ FS.Path c ∧
    FS.is_file tree p = true ∧
    ∀ b, b ∈ before → FS.is_file tree (dir ++ FS.Path b) = false.
Proof.
  induction candidates as [|c cs IH]; simpl; [done|].
  destruct (FS.is_file tree (dir ++ FS.Path c)) eqn:E.
  - intros [= <-]. exists [], c, cs. repeat split; try done.
    intros b Hb. by apply elem_of_nil in Hb.
  - intros H. destruct (IH H) as (before & c' & after & -> & -> & Hf & Hb).
    exists (c :: before), c', after. repeat split; try done.
    intros b [->|Hin]%elem_of_cons; [done|by apply Hb].
Qed.

Lemma first_candidate_file_first (tree : node) (dir : path)
    (before after : list string) (c : string) :
  (∀ b, b ∈ before → FS.is_file tree (dir ++ FS.Path b) = false) →
  FS.is_file tree (dir ++ FS.Path c) = true →
  first_candidate_file tree dir (before ++ c :: after) = Some (dir ++ FS.Path c).
Proof.
  intros Hb Hc. induction before as [|b before IH]; simpl.
  - by rewrite Hc.
  - rewrite (Hb b) by (apply elem_of_cons; by left).
    apply IH. intros b' Hin. apply Hb, elem_of_cons. by right.
Qed.

Lemma first_named_Some (candidates : list string) (found : list path) (p : path) :
  first_named candidates found = Some p → p ∈ found ∧ FS.name p ∈ candidates.
Proof.
  unfold first_named. intros H. apply find_some in H as [Hin Hb].
  split; [by apply list_elem_of_In|].
  apply Is_true_true in Hb. by apply bool_decide_unpack in Hb.
Qed.

Lemma first_named_exists (candidates : list string) (found : list path) (p : path) :
  p ∈ found → FS.name p ∈ candidates → is_Some (first_named candidates found).
Proof.
  intros Hin Hname. unfold first_named.
  destruct (find _ found) as [r|] eqn:E; [by eexists|].
  apply list_elem_of_In in Hin.
  pose proof (find_none _ _ E p Hin) as Hno. simpl in Hno.
  by rewrite bool_decide_true in Hno.
Qed.

Lemma is_file_exists (tree : node) (p : path) :
  FS.is_file tree p = true → FS.exists_ tree p = true.
Proof. unfold FS.is_file, FS.exists_. by destruct (FS.walk tree p) as [[]|]. Qed.

Lemma find_without_env (tree : node) (env : gmap string string) (default_root : path)
    (search_root : option string) (candidates : list string) :
  env_names_no_file tree env →
  find_issues_file_in tree env default_root None search_root candidates
  = find_issues_file_in tree ∅ default_root None search_root candidates.
Proof.
  intros Henv. unfold find_issues_file_in. rewrite lookup_empty.
  destruct (env !! "GIT_ISSUES_FILE") as [env_path|] eqn:E; [|done].
  destruct (Henv env_path E) as [->|Hf]; [done|].
  by rewrite Hf, andb_false_r.
Qed.

(** Where a result of [find_issues_file] comes from. *)
Lemma find_Ok_cases (tree : node) (env : gmap string string)
    (default_root : path) (explicit_path search_root : option string)
    (candidates : list string) (p : path) :
  find_issues_file_in tree env default_root explicit_path search_root candidates = Ok p →
  let root_path := match search_root with
                   | None => default_root
                   | Some r => FS.Path r
                   end in
  (∃ e, explicit_path = Some e ∧ p = FS.Path e ∧ FS.is_file tree p = true) ∨
  (∃ s, explicit_path = None ∧ env !! "GIT_ISSUES_FILE" = Some s ∧ s ≠ "" ∧
        p = FS.Path s ∧ FS.is_file tree p = true) ∨
  (explicit_path = None ∧ first_candidate_file tree root_path candidates = Some p) ∨
  (explicit_path = None ∧ FS.exists_ tree (root_path ++ [".git"]) = true ∧
   first_candidate_file tree (root_path ++ [".git"]) candidates = Some p) ∨
  (explicit_path = None ∧
   ∃ n, FS.walk tree root_path = Some n ∧
        first_named candidates (FS.rglob_json root_path n) = Some p).
Proof.
  intros H root_path. unfold find_issues_file_in in H. fold root_path in H.
  destruct explicit_path as [e|].
  { destruct (FS.is_file tree (FS.Path e)) eqn:E; [|done].
    injection H as <-. left. by exists e. }
  right.
  destruct (match env !! "GIT_ISSUES_FILE" with
            | Some env_path =>
                if bool_decide (env_path ≠ "") && FS.is_file tree (FS.Path env_path)
                then Some (FS.Path env_path) else None
            | None => None
            end) as [q|] eqn:Eenv.
  { injection H as <-. left.
    destruct (env !! "GIT_ISSUES_FILE") as [s|]; [|done].
    destruct (bool_decide (s ≠ "") && FS.is_file tree (FS.Path s)) eqn:E; [|done].
    injection Eenv as <-. apply andb_true_iff in E as [E1 E2].
    exists s. repeat split; try done. by apply bool_decide_eq_true in E1. }
  right.
  destruct (first_candidate_file tree root_path candidates) as [q|] eqn:E1.
  { injection H as <-. by left. }
  right.
  destruct (FS.exists_ tree (root_path ++ [".git"])) eqn:Eg.
  - destruct (first_candidate_file tree (root_path ++ [".git"]) candidates) as [q|] eqn:E2.
    { injection H as <-. by left. }
    right. split; [done|].
    destruct (FS.walk tree root_path) as [n|]; [|done].
    exists n. split; [done|].
    by destruct (first_named candidates (FS.rglob_json root_path n)) as [q|]; simplify_eq.
  - right. split; [done|].
    destruct (FS.walk tree root_path) as [n|]; [|done].
    exists n. split; [done|].
    by destruct (first_named candidates (FS.rglob_json root_path n)) as [q|]; simplify_eq.
Qed.

(** X3.  [find_issues_file] never returns a path that does not exist: the
    result names an entry of the file system. *)
Theorem find_issues_file_result_exists (tree : node) (env : gmap string string)
    (default_root : path) (explicit_path search_root : option string)
    (candidates : list string) (p : path) :
  unique_names tree →
  find_issues_file_in tree env default_root explicit_path search_root candidates = Ok p →
  FS.exists_ tree p = true.
Proof.
  intros Hwf Hfind.
  destruct (find_Ok_cases _ _ _ _ _ _ _ Hfind)
    as [(e & _ & _ & Hf)|[(s & _ & _ & _ & _ & Hf)|[[_ Hc]|[(_ & _ & Hc)|(_ & n & Hw & Hs)]]]].
  - by apply is_file_exists.
  - by apply is_file_exists.
  - apply first_candidate_file_Some in Hc as (?&?&?&_&_&Hf&_). by apply is_file_exists.
  - apply first_candidate_file_Some in Hc as (?&?&?&_&_&Hf&_). by apply is_file_exists.
  - apply first_named_Some in Hs as [Hin _].
    apply rglob_json_sound in Hin as (q' & -> & [x Hx] & _);
      [|by eapply walk_unique_names].
    unfold FS.exists_. rewrite walk_app, Hw. simpl. by rewrite Hx.
Qed.

Lemma name_app (here q : path) : q ≠ [] → FS.name (here ++ q) = FS.name q.
Proof.
  intros Hne. unfold FS.name. induction here as [|c here IH]; [done|].
  simpl. destruct (here ++ q) eqn:E; [|done].
  by apply app_eq_nil in E as [_ ->].
Qed.

Lemma rglob_json_names (n : node) : ∀ (here p : path),
  p ∈ FS.rglob_json here n → Text.ends_with ".json" (FS.name p) = true.
Proof.
  induction n as [text|es IH] using node_nested_ind; intros here p; simpl.
  { intros H. by apply elem_of_nil in H. }
  intros [Hin|Hin]%elem_of_app.
  - unfold FS.matches_here in Hin.
    apply list_elem_of_fmap in Hin as ([name x] & -> & Hin).
    apply list_elem_of_filter in Hin as [Hjson _]. simpl in *.
    unfold FS.name. rewrite last_last. by apply Is_true_true.
  - induction IH as [|[name x] es Hx _ IHes]; simpl in Hin.
    + by apply elem_of_nil in Hin.
    + apply elem_of_app in Hin as [Hin|Hin]; [by apply (Hx (here ++ [name]))|by apply IHes].
Qed.

Lemma first_candidate_file_None (tree : node) (dir : path) (candidates : list string) :
  (∀ c, c ∈ candidates → FS.is_file tree (dir ++ FS.Path c) = false) →
  first_candidate_file tree dir candidates = None.
Proof.
  intros Hno. induction candidates as [|c cs IH]; simpl; [done|].
  rewrite (Hno c) by (apply elem_of_cons; by left).
  apply IH. intros c' Hin. apply Hno, elem_of_cons. by right.
Qed.

(** X4.  [find_issues_file] does not read the content of any file: two file
    systems with the same directories and file names give the same
    result. *)
Theorem find_issues_file_ignores_contents (tree tree' : node)
    (env : gmap string string) (default_root : path)
    (explicit_path search_root : option string) (candidates : list string) :
  shape tree = shape tree' →
  find_issues_file_in tree env default_root explicit_path search_root candidates
  = find_issues_file_in tree' env default_root explicit_path search_root candidates.
Proof.
  intros Hshape.
  rewrite <- (find_issues_file_in_shape tree), <- (find_issues_file_in_shape tree').
  by rewrite Hshape.
Qed.

(** X5.  A [GIT_ISSUES_FILE] that is empty or names no regular file is passed
    over without an error, where an explicit path of that kind raises:
    the search goes on as if the variable were unset. *)
Theorem find_issues_file_skips_unusable_env (tree : node) (env : gmap string string)
    (default_root : path) (search_root : option string) (candidates : list string) :
  env_names_no_file tree env →
  find_issues_file_in tree env default_root None search_root candidates
  = find_issues_file_in tree (delete "GIT_ISSUES_FILE" env) default_root
                        None search_root candidates.
Proof.
  intros Henv. rewrite find_without_env by done.
  symmetry. apply find_without_env.
  intros s Hs. by rewrite lookup_delete_eq in Hs.
Qed.

(** X6.  The candidates are tried in their order, and the search root comes
    before [.git] and before the scan: the first candidate that names a
    regular file in the search root is the result, whatever lies
    elsewhere. *)
Theorem find_issues_file_prefers_root (tree : node) (env : gmap string string)
    (default_root : path) (search_root : option string)
    (before after : list string) (c : string) :
  env_names_no_file tree env →
  let root_path := match search_root with
                   | None => default_root
                   | Some r => FS.Path r
                   end in
  (∀ b, b ∈ before → FS.is_file tree (root_path ++ FS.Path b) = false) →
  FS.is_file tree (root_path ++ FS.Path c) = true →
  find_issues_file_in tree env default_root None search_root (before ++ c :: after)
  = Ok (root_path ++ FS.Path c).
Proof.
  intros Henv root_path Hb Hc. rewrite find_without_env by done.
  unfold find_issues_file_in. rewrite lookup_empty. fold root_path.
  by rewrite first_candidate_file_first.
Qed.

(** X7.  With no candidate in the search root, the first candidate that names
    a regular file in its [.git] directory is the result, before any
    file that the scan would find. *)
Theorem find_issues_file_prefers_git_dir (tree : node) (env : gmap string string)
    (default_root : path) (search_root : option string)
    (before after : list string) (c : string) :
  env_names_no_file tree env →
  let root_path := match search_root with
                   | None => default_root
                   | Some r => FS.Path r
                   end in
  (∀ b, b ∈ before ++ c :: after → FS.is_file tree (root_path ++ FS.Path b) = false) →
  (∀ b, b ∈ before → FS.is_file tree ((root_path ++ [".git"]) ++ FS.Path b) = false) →
  FS.is_file tree ((root_path ++ [".git"]) ++ FS.Path c) = true →
  find_issues_file_in tree env default_root None search_root (before ++ c :: after)
  = Ok ((root_path ++ [".git"]) ++ FS.Path c).
Proof.
  intros Henv root_path Hroot Hb Hc. rewrite find_without_env by done.
  unfold find_issues_file_in. rewrite lookup_empty. fold root_path.
  rewrite first_candidate_file_None by done.
  assert (FS.exists_ tree (root_path ++ [".git"]) = true) as ->.
  { unfold FS.is_file in Hc. unfold FS.exists_. rewrite walk_app in Hc.
    by destruct (FS.walk tree (root_path ++ [".git"])). }
  by rewrite first_candidate_file_first.
Qed.

(** X8.  The scan reaches every depth: when an entry anywhere below the
    search root bears the name of a candidate that ends in [.json],
    [find_issues_file] returns a path and does not raise. *)
Theorem find_issues_file_finds_deep_candidate (tree : node) (env : gmap string string)
    (default_root : path) (search_root : option string) (candidates : list string)
    (n x : node) (q : path) :
  let root_path := match search_root with
                   | None => default_root
                   | Some r => FS.Path r
                   end in
  FS.walk tree root_path = Some n →
  FS.walk n q = Some x → q ≠ [] →
  FS.name q ∈ candidates →
  Text.ends_with ".json" (FS.name q) = true →
  ∃ p, find_issues_file_in tree env default_root None search_root candidates = Ok p.
Proof.
  intros root_path Hroot Hq Hne Hname Hjson.
  assert (is_Some (first_named candidates (FS.rglob_json root_path n))) as [r Hr].
  { apply (first_named_exists _ _ (root_path ++ q)).
    - by apply (rglob_json_complete q n x).
    - by rewrite name_app. }
  unfold find_issues_file_in. fold root_path.
  destruct (match env !! "GIT_ISSUES_FILE" with
            | Some env_path =>
                if bool_decide (env_path ≠ "") && FS.is_file tree (FS.Path env_path)
                then Some (FS.Path env_path) else None
            | None => None
            end); [by eexists|].
  destruct (first_candidate_file tree root_path candidates); [by eexists|].
  destruct (if FS.exists_ tree (root_path ++ [".git"])
            then first_candidate_file tree (root_path ++ [".git"]) candidates
            else None); [by eexists|].
  rewrite Hroot, Hr. by eexists.
Qed.

(** X9.  The scan only looks at names that end in [.json].  With candidates
    none of which ends in [.json], a result comes from the search root or
    from its [.git] directory, never from deeper. *)
Theorem find_issues_file_scan_needs_json (tree : node) (env : gmap string string)
    (default_root : path) (search_root : option string) (candidates : list string)
    (p : path) :
  env_names_no_file tree env →
  (∀ c, c ∈ candidates → Text.ends_with ".json" c = false) →
  find_issues_file_in tree env default_root None search_root candidates = Ok p →
  let root_path := match search_root with
                   | None => default_root
                   | Some r => FS.Path r
                   end in
  ∃ c, c ∈ candidates ∧
       (p = root_path ++ FS.Path c ∨ p = (root_path ++ [".git"]) ++ FS.Path c).
Proof.
  intros Henv Hnojson Hfind root_path.
  destruct (find_Ok_cases _ _ _ _ _ _ _ Hfind)
    as [(e & ? & _)|[(s & _ & Hs & Hne & -> & Hf)|[[_ Hc]|[(_ & _ & Hc)|(_ & n & Hw & Hn)]]]].
  - done.
  - destruct (Henv s Hs) as [->|Hno]; [done|congruence].
  - apply first_candidate_file_Some in Hc as (before & c & after & -> & -> & _).
    exists c. split; [|by left]. apply elem_of_app. right. apply elem_of_cons. by left.
  - apply first_candidate_file_Some in Hc as (before & c & after & -> & -> & _).
    exists c. split; [|by right]. apply elem_of_app. right. apply elem_of_cons. by left.
  - apply first_named_Some in Hn as [Hin Hname].
    apply rglob_json_names in Hin. by rewrite (Hnojson _ Hname) in Hin.
Qed.

(** ** Writing one file *)

Lemma entry_write (c d : string) (p : path) (text : string)
    (es : list (string * node)) :
  FS.entry d
    ((fix upd (es : list (string * node)) : list (string * node) :=
        match es with
        | [] => []
        | (name, x) :: es' =>
            if String.eqb name c then (name, FS.write x p text) :: es'
            else (name, x) :: upd es'
        end) es)
  = if String.eqb c d then (λ x, FS.write x p text) <$> FS.entry d es
    else FS.entry d es.
Proof.
  induction es as [|[name x] es IH]; simpl.
  { by destruct (String.eqb c d). }
  destruct (String.eqb name c) eqn:Ec; simpl.
  - apply String.eqb_eq in Ec as ->.
    destruct (String.eqb c d) eqn:Ed; simpl; [done|done].
  - destruct (String.eqb name d) eqn:Ed; simpl; [|exact IH].
    apply String.eqb_eq in Ed as ->.
    rewrite String.eqb_sym, Ec. done.
Qed.

Lemma walk_write_other (p : path) (text : string) : ∀ (q : path) (n : node) (c : string),
  q ≠ p → FS.walk n q = Some (File c) →
  FS.walk (FS.write n p text) q = Some (File c).
Proof.
  induction p as [|a p IH]; intros q n c Hne Hwalk.
  { destruct n as [t|es]; [|done]. destruct q; [done|]. done. }
  destruct n as [t|es]; [done|].
  destruct q as [|d q]; [done|].
  cbn [FS.write FS.walk]. rewrite entry_write. simpl in Hwalk.
  destruct (String.eqb a d) eqn:E.
  - apply String.eqb_eq in E as ->.
    destruct (FS.entry d es) as [x|]; [|done]. simpl.
    apply IH; [|done]. by intros ->.
  - done.
Qed.

Lemma write_write (p : path) (text text' : string) : ∀ n : node,
  FS.write (FS.write n p text) p text' = FS.write n p text'.
Proof.
  induction p as [|a p IH]; intros n.
  { by destruct n. }
  destruct n as [t|es]; [done|]. cbn [FS.write]. f_equal.
  induction es as [|[name x] es IHes]; [done|].
  destruct (String.eqb name a) eqn:E; rewrite ?E; [by rewrite IH|by rewrite IHes].
Qed.

(** ** More on the operations *)

Lemma list_open_loop_total (issues : list loc) : ∀ (result : list loc) (w : world),
  list_open_loop issues result w =
    (if forallb (λ l, status_readable (obj (heap w) l)) issues
     then Ok (result ++ filter (λ l, normalized_status (obj (heap w) l) ∈ open_statuses)
                               issues)
     else Raise AttributeError, w).
Proof.
  induction issues as [|issue rest IH]; intros result w; cbn [list_open_loop forallb].
  { by rewrite filter_nil, app_nil_r. }
  destruct (status_readable (obj (heap w) issue)) eqn:Hr; cbn [andb].
  - erewrite bind_ok by (apply issue_status_spec; by rewrite Hr).
    rewrite filter_cons. case_bool_decide as E.
    + rewrite decide_True by done. rewrite IH.
      destruct (forallb _ rest); [|done].
      f_equal. f_equal. symmetry. apply (app_assoc result [issue]).
    + rewrite decide_False by done. apply IH.
  - apply bind_raise, issue_status_raises. rewrite Hr. by intros [].
Qed.

Lemma issue_records_forallb (h : list json) (issues : list loc) :
  forallb (λ l, status_readable (obj h l)) issues = true ↔ issue_records h issues.
Proof.
  unfold issue_records. rewrite <- Is_true_true, forallb_True. done.
Qed.

Lemma map_filter_comm {A B : Type} (f : A → B) (P : A → Prop) (Q : B → Prop)
    `{!∀ x, Decision (P x)} `{!∀ y, Decision (Q y)} (l : list A) :
  (∀ x, P x ↔ Q (f x)) →
  map f (filter P l) = filter Q (map f l).
Proof.
  intros HPQ. induction l as [|a l IH]; [done|].
  cbn [map]. rewrite !filter_cons.
  destruct (decide (P a)) as [HP|HP], (decide (Q (f a))) as [HQ|HQ];
    cbn [map]; rewrite ?IH; try done.
  - by apply HPQ in HP.
  - by apply HPQ in HQ.
Qed.






Lemma keeps_fs_raise {A : Type} (e : exn) : keeps_fs (raise (A := A) e).
Proof. by intros w. Qed.

Lemma keeps_fs_list_open_loop (issues : list loc) (result : list loc) :
  keeps_fs (list_open_loop issues result).
Proof. intros w. by rewrite list_open_loop_total. Qed.





Section MoreOperations.

Context `{codec : JsonCodec}.


(** X10.  On a sequence held in memory [list_open_issues] raises exactly when
    some record holds a status that is not a text, the exception is
    [AttributeError], and in every case the store is left as it was. *)
Theorem list_open_issues_raises_iff
    (issues : list loc) (file_path : option string) (w : world) :
  ((list_open_issues (Some issues) file_path w).1 = Raise AttributeError
   ↔ ¬ issue_records (heap w) issues) ∧
  (∀ e, (list_open_issues (Some issues) file_path w).1 = Raise e → e = AttributeError) ∧
  (list_open_issues (Some issues) file_path w).2 = w.
Proof.
  unfold list_open_issues. rewrite (bind_ok _ _ w w issues) by done.
  rewrite list_open_loop_total.
  destruct (forallb _ issues) eqn:E; simpl.
  - apply issue_records_forallb in E. split; [|done]. split; [done|]. by intros [].
  - split; [|split; [|done]].
    + split; [|done]. intros _ Hrec. apply issue_records_forallb in Hrec. congruence.
    + by intros e [= <-].
Qed.

(** X11.  [load_issues] and [list_open_issues] only read: whatever the
    arguments and the outcome, the store afterwards is the store before
    with at most new objects added to the heap, so that the file system,
    the environment, the clock and every object that existed are
    untouched. *)
Theorem list_open_issues_only_reads
    (issues : option (list loc)) (file_path : option string) (w : world) :
  (∃ new, (load_issues file_path w).2 = set_heap (heap w ++ new) w) ∧
  (∃ new, (list_open_issues issues file_path w).2 = set_heap (heap w ++ new) w).
Proof.
  assert (set_heap (heap w ++ []) w = w) as Hsame.
  { rewrite app_nil_r. by destruct w. }
  assert (∃ new, (load_issues file_path w).2 = set_heap (heap w ++ new) w) as Hload.
  { rewrite load_issues_run.
    destruct (find_issues_file_in _ _ _ _ _ _) as [p|e]; [|by exists []].
    destruct (FS.walk (fs w) p) as [[text|es]|]; try by exists [].
    destruct (json_load text) as [[| | | | |items|]|]; try by exists [].
    by exists items. }
  split; [done|].
  unfold list_open_issues. destruct issues as [issues|].
  - exists []. rewrite (bind_ok _ _ w w issues) by done.
    by rewrite list_open_loop_total, Hsame.
  - destruct Hload as [new Hnew]. exists new.
    unfold mbind, M_bind. destruct (load_issues file_path w) as [[loaded|e] w1].
    + simpl in Hnew. subst w1. by rewrite list_open_loop_total.
    + done.
Qed.


(** X12.  Called without a sequence, [list_open_issues] lists the open records
    of the issues file: when the file is found and holds a list of issue
    records, the result refers to exactly the records of the file whose
    normalised status is an open one, in the order of the file. *)
Theorem list_open_issues_from_file
    (file_path : option string) (w : world)
    (p : path) (text : string) (items : list json) :
  find_issues_file_in (fs w) (environ w) (module_root w)
                      file_path None DEFAULT_ISSUE_FILE_CANDIDATES = Ok p →
  FS.walk (fs w) p = Some (File text) →
  json_load text = Some (JArr items) →
  Forall (λ x, Is_true (is_mapping x && status_readable x)) items →
  ∃ (found : list loc) (w' : world),
    list_open_issues None file_path w = (Ok found, w') ∧
    map (obj (heap w')) found
    = filter (λ x, normalized_status x
                     ∈ ["open"; "opened"; "todo"; "backlog"; "in_progress"]) items ∧
    fs w' = fs w.
Proof.
  intros Hfind Hwalk Hload Hitems.
  set (issues := seq (length (heap w)) (length items)).
  set (w1 := set_heap (heap w ++ items) w).
  assert (load_issues file_path w = (Ok issues, w1)) as Hrun.
  { rewrite load_issues_run, Hfind, Hwalk, Hload.
    assert (forallb is_mapping items = true) as ->; [|done].
    apply Is_true_true, forallb_True.
    eapply Forall_impl; [exact Hitems|]. by intros x [? _]%andb_prop_elim. }
  assert (map (obj (heap w1)) issues = items) as Hobjs by apply obj_alloc.
  assert (forallb (λ l, status_readable (obj (heap w1) l)) issues = true) as Hall.
  { apply issue_records_forallb. unfold issue_records.
    apply (Forall_fmap (obj (heap w1)) (λ x, Is_true (status_readable x))).
    change (fmap (obj (heap w1)) issues) with (map (obj (heap w1)) issues).
    rewrite Hobjs. eapply Forall_impl; [exact Hitems|].
    by intros x [_ ?]%andb_prop_elim. }
  eexists _, w1. split; [|split; [|done]].
  - unfold list_open_issues. erewrite bind_ok by exact Hrun.
    rewrite list_open_loop_total, Hall. done.
  - rewrite <- Hobjs, app_nil_l.
    by apply map_filter_comm.
Qed.







End MoreOperations.

(** ** How the operations compose *)

Lemma for_each_app {A : Type} (body : A → M unit) (xs ys : list A) (w : world) :
  for_each body (xs ++ ys) w = (for_each body xs ;; for_each body ys) w.
Proof.
  revert w. induction xs as [|x xs IH]; intros w; [done|].
  simpl. unfold mbind, M_bind.
  destruct (body x w) as [[[]|e] w1]; [|done]. apply IH.
Qed.

Lemma filter_ext_elem {A : Type} (P Q : A → Prop)
    `{!∀ x, Decision (P x)} `{!∀ x, Decision (Q x)} (l : list A) :
  (∀ x, x ∈ l → P x ↔ Q x) → filter P l = filter Q l.
Proof.
  induction l as [|a l IH]; intros HPQ; [done|].
  rewrite !filter_cons.
  assert (P a ↔ Q a) as Ha by (apply HPQ, elem_of_cons; by left).
  rewrite IH by (intros x Hx; apply HPQ, elem_of_cons; by right).
  destruct (decide (P a)) as [HP|HP], (decide (Q a)) as [HQ|HQ]; try done.
  - by apply Ha in HP.
  - by apply Ha in HQ.
Qed.

Section MarkMore.

Variables (matches : string → bool) (new_status stamp : string).

Hypothesis new_nonempty : Text.lower (Text.strip new_status) ≠ "".
Hypothesis new_settled : matches (Text.lower (Text.strip new_status)) = false.
Hypothesis empty_unmatched : matches "" = false.
Hypothesis stamp_name : stamp ≠ "status" ∧ stamp ≠ "state".

(** The status of a record of the sequence after a run of the loop. *)
Lemma mark_result_status (issues : list loc) (w w' : world) (l : loc) :
  mark_result matches new_status stamp issues w w' →
  l ∈ issues →
  normalized_status (obj (heap w') l)
  = if matches (normalized_status (obj (heap w) l))
    then Text.lower (Text.strip new_status)
    else normalized_status (obj (heap w) l).
Proof.
  intros Hres Hin.
  destruct (matches (normalized_status (obj (heap w) l))) eqn:Hm.
  - destruct (matched_is_mapping matches empty_unmatched _ Hm) as [fields Hx].
    destruct Hres as (_ & _ & _ & _ & _ & _ & Hobjs).
    specialize (Hobjs l). rewrite decide_True in Hobjs by (by rewrite Hm).
    destruct Hobjs as (n & _ & Hl').
    assert (obj (heap w') l = marked new_status stamp (clock w n) (JObj fields))
      as -> by (unfold obj at 1; by rewrite Hl', Hx).
    by apply marked_status.
  - unfold obj.
    by rewrite (mark_result_miss matches new_status stamp issues w w' l Hres)
      by (by right).
Qed.

(** The loop stops at the first record that is not readable, and what it
    did to the records before stays. *)
Lemma mark_loop_stops (good rest : list loc) (bad : loc) (w : world) :
  issue_records (heap w) good →
  ¬ status_readable (obj (heap w) bad) →
  ∃ w1, for_each (mark_body matches new_status stamp) good w = (Ok tt, w1) ∧
        for_each (mark_body matches new_status stamp) (good ++ bad :: rest) w
        = (Raise AttributeError, w1).
Proof.
  intros Hrec Hbad.
  destruct (mark_loop_spec matches new_status stamp new_nonempty new_settled
              empty_unmatched stamp_name good w Hrec) as (w1 & Hrun & _ & Hres).
  exists w1. split; [done|].
  rewrite for_each_app. erewrite bind_ok by exact Hrun. simpl.
  apply bind_raise. unfold mark_body. apply bind_raise, issue_status_raises.
  assert (bad ∉ good) as Hout.
  { intros Hin. apply Hbad. by apply (proj1 (Forall_forall _ _) Hrec bad). }
  unfold obj.
  by rewrite (mark_result_miss matches new_status stamp good w w1 bad Hres)
    by (by left).
Qed.

End MarkMore.

Section Composition.

Context `{codec : JsonCodec}.

(** X15.  [save_issues] rewrites one file and nothing else: the file that
    [find_issues_file] resolves to holds the dumped list followed by a
    newline, every other file keeps its content, the heap and the clock
    are untouched, and saving the same sequence again changes nothing. *)
Theorem save_issues_rewrites_one_file
    (issues : list loc) (file_path : option string) (w : world) (p : path) :
  find_issues_file_in (fs w) (environ w) (module_root w)
                      file_path None DEFAULT_ISSUE_FILE_CANDIDATES = Ok p →
  FS.is_file (fs w) p = true →
  ∃ w1 : world,
    save_issues issues file_path w = (Ok p, w1) ∧
    heap w1 = heap w ∧ ticks w1 = ticks w ∧
    FS.walk (fs w1) p
      = Some (File (json_dump (JArr (map (obj (heap w)) issues))
                    +:+ String "010"%char EmptyString)) ∧
    (∀ (q : path) (c : string),
       q ≠ p → FS.walk (fs w) q = Some (File c) → FS.walk (fs w1) q = Some (File c)) ∧
    save_issues issues file_path w1 = (Ok p, w1).
Proof.
  intros Hfind Hfile.
  assert (∃ old, FS.walk (fs w) p = Some (File old)) as [old Hwalk].
  { unfold FS.is_file in Hfile. destruct (FS.walk (fs w) p) as [[old|]|]; eauto; done. }
  eexists. split; [by eapply save_issues_run|]. simpl.
  split; [done|]. split; [done|].
  split; [by apply walk_write_same|].
  split; [intros q c Hne Hq; by apply walk_write_other|].
  erewrite save_issues_run.
  - simpl. rewrite write_write. done.
  - simpl. by rewrite find_issues_file_in_write.
  - simpl. by apply walk_write_same.
Qed.

(** X16.  There is no rollback.  When a record whose status is not a text
    follows issue records in the sequence, a mutation operation raises
    [AttributeError] at that record and leaves the store exactly as the
    operation leaves it on the records before: these have been changed,
    the records after have not been looked at. *)
Theorem mutations_stop_at_unreadable_record
    (good rest : list loc) (bad : loc) (file_path : option string) (w : world) :
  issue_records (heap w) good →
  ¬ status_readable (obj (heap w) bad) →
  (∃ w1 : world,
     close_implemented_issues (Some good) file_path w = (Ok good, w1) ∧
     close_implemented_issues (Some (good ++ bad :: rest)) file_path w
     = (Raise AttributeError, w1)) ∧
  (∃ w1 : world,
     complete_open_issues (Some good) file_path w = (Ok good, w1) ∧
     complete_open_issues (Some (good ++ bad :: rest)) file_path w
     = (Raise AttributeError, w1)).
Proof.
  intros Hrec Hbad. split.
  - destruct (mark_loop_stops is_implemented "closed" "closed_at"
                ltac:(done) ltac:(done) ltac:(done) ltac:(done) good rest bad w Hrec Hbad)
      as (w1 & Hgood & Hall).
    exists w1. unfold close_implemented_issues. rewrite close_body_is_mark. split.
    + rewrite (bind_ok _ _ w w (good, false)) by done.
      by erewrite bind_ok by exact Hgood.
    + rewrite (bind_ok _ _ w w (good ++ bad :: rest, false)) by done.
      by apply bind_raise.
  - destruct (mark_loop_stops is_open_or_opened "completed" "completed_at"
                ltac:(done) ltac:(done) ltac:(done) ltac:(done) good rest bad w Hrec Hbad)
      as (w1 & Hgood & Hall).
    exists w1. unfold complete_open_issues. rewrite complete_body_is_mark. split.
    + rewrite (bind_ok _ _ w w (good, false)) by done.
      by erewrite bind_ok by exact Hgood.
    + rewrite (bind_ok _ _ w w (good ++ bad :: rest, false)) by done.
      by apply bind_raise.
Qed.

(** X17.  After [complete_open_issues] the open issues are the ones that were
    waiting: [list_open_issues] then returns exactly the issues whose
    normalised status was todo, backlog or in_progress, and none that was
    open or opened. *)
Theorem complete_then_list_open
    (issues : list loc) (file_path : option string) (w : world) :
  issue_records (heap w) issues →
  ∃ w' : world,
    complete_open_issues (Some issues) file_path w = (Ok issues, w') ∧
    list_open_issues (Some issues) file_path w'
    = (Ok (filter (λ l, normalized_status (obj (heap w) l)
                          ∈ ["todo"; "backlog"; "in_progress"]) issues), w').
Proof.
  intros Hrec.
  destruct (complete_given_run issues file_path w Hrec) as (w' & Hrun & Hrec' & Hres).
  exists w'. split; [done|].
  rewrite list_open_given_run by done. do 2 f_equal.
  apply filter_ext_elem. intros l Hin.
  rewrite (mark_result_status is_open_or_opened "completed" "completed_at"
             ltac:(done) ltac:(done) ltac:(done) issues w w' l Hres Hin).
  unfold is_open_or_opened, open_statuses.
  generalize (normalized_status (obj (heap w) l)). intros s.
  case_bool_decide as E.
  - split; [compute_done|]. intros Hw. exfalso.
    rewrite !elem_of_cons, !elem_of_nil in E.
    rewrite !elem_of_cons, !elem_of_nil in Hw.
    destruct E as [->|[->|[]]]; destruct Hw as [?|[?|[?|[]]]]; discriminate.
  - rewrite !elem_of_cons, !elem_of_nil in E.
    rewrite !elem_of_cons, !elem_of_nil. tauto.
Qed.

(** X18.  [close_implemented_issues] does not change which issues are open:
    [list_open_issues] returns the same issues after it as before. *)
Theorem close_keeps_open_issues
    (issues : list loc) (file_path : option string) (w : world) :
  issue_records (heap w) issues →
  ∃ w' : world,
    close_implemented_issues (Some issues) file_path w = (Ok issues, w') ∧
    (list_open_issues (Some issues) file_path w').1
    = (list_open_issues (Some issues) file_path w).1.
Proof.
  intros Hrec.
  destruct (close_given_run issues file_path w Hrec) as (w' & Hrun & Hrec' & Hres).
  exists w'. split; [done|].
  rewrite !list_open_given_run by done. simpl. f_equal.
  apply filter_ext_elem. intros l Hin.
  rewrite (mark_result_status is_implemented "closed" "closed_at"
             ltac:(done) ltac:(done) ltac:(done) issues w w' l Hres Hin).
  unfold is_implemented, open_statuses.
  generalize (normalized_status (obj (heap w) l)). intros s.
  case_bool_decide as E; [|done].
  subst s. split; intros H; exfalso; revert H; compute_done.
Qed.

(** X19.  An issue that has neither a status nor a state (the keys are missing
    or hold [null]), and likewise an element of the sequence that is not a
    mapping, is passed over by the three operations: it is never listed
    as open and never changed. *)
Theorem issues_without_status_are_skipped
    (issues : list loc) (file_path : option string) (w : world) (l : loc) :
  issue_records (heap w) issues →
  dict_get (obj (heap w) l) "status" = JNull →
  dict_get (obj (heap w) l) "state" = JNull →
  (∃ found : list loc,
     list_open_issues (Some issues) file_path w = (Ok found, w) ∧ l ∉ found) ∧
  (∃ w' : world,
     close_implemented_issues (Some issues) file_path w = (Ok issues, w') ∧
     heap w' !! l = heap w !! l) ∧
  (∃ w' : world,
     complete_open_issues (Some issues) file_path w = (Ok issues, w') ∧
     heap w' !! l = heap w !! l).
Proof.
  intros Hrec Hstatus Hstate.
  assert (normalized_status (obj (heap w) l) = "") as Hn.
  { unfold normalized_status, field_text. unfold dict_get in *.
    destruct (obj (heap w) l) as [| | | | | |fields]; try done.
    destruct (fields !! "status") as [[]|]; try done;
      destruct (fields !! "state") as [[]|]; done. }
  split; [|split].
  - eexists. split; [by apply list_open_given_run|].
    rewrite list_elem_of_filter, Hn. intros [H _]. revert H. compute_done.
  - destruct (close_given_run issues file_path w Hrec) as (w' & Hrun & _ & Hres).
    exists w'. split; [done|].
    apply (mark_result_miss is_implemented "closed" "closed_at" issues); [done|].
    right. by rewrite Hn.
  - destruct (complete_given_run issues file_path w Hrec) as (w' & Hrun & _ & Hres).
    exists w'. split; [done|].
    apply (mark_result_miss is_open_or_opened "completed" "completed_at" issues);
      [done|].
    right. by rewrite Hn.
Qed.

End Composition.

(** ** Sequences without sharing, and what reaches the file *)

Section MarkMap.

Variables (matches : string → bool) (new_status stamp : string).

Hypothesis new_nonempty : Text.lower (Text.strip new_status) ≠ "".
Hypothesis new_settled : matches (Text.lower (Text.strip new_status)) = false.
Hypothesis empty_unmatched : matches "" = false.
Hypothesis stamp_name : stamp ≠ "status" ∧ stamp ≠ "state".

Lemma mark_loop_map (issues : list loc) : ∀ w : world,
  NoDup issues →
  issue_records (heap w) issues →
  ∃ w' : world,
    for_each (mark_body matches new_status stamp) issues w = (Ok tt, w') ∧
    map (obj (heap w')) issues
    = mark_all matches new_status stamp (clock w) (ticks w)
               (map (obj (heap w)) issues).
Proof.
  induction issues as [|l rest IH]; intros w Hnd Hrec.
  { by exists w. }
  apply NoDup_cons in Hnd as [Hout Hnd].
  apply Forall_cons in Hrec as [Hhd Htl].
  assert (∀ w1 : world,
            (∀ l', l' ≠ l → heap w1 !! l' = heap w !! l') →
            map (obj (heap w1)) rest = map (obj (heap w)) rest) as Hsame.
  { intros w1 Hw1. apply map_ext_in. intros l' Hin%list_elem_of_In.
    unfold obj. rewrite Hw1; [done|]. by intros ->. }
  simpl. destruct (matches (normalized_status (obj (heap w) l))) eqn:Hm.
  - destruct (mark_body_hit matches new_status stamp empty_unmatched l w Hhd Hm)
      as [Hl Hrun].
    set (x' := marked new_status stamp (clock w (ticks w)) (obj (heap w) l)) in *.
    set (w1 := tick (set_heap (<[l := x']> (heap w)) w)) in *.
    assert (∀ l', l' ≠ l → heap w1 !! l' = heap w !! l') as Hw1.
    { intros l' Hne. simpl. by rewrite list_lookup_insert_ne. }
    assert (issue_records (heap w1) rest) as Hrec1.
    { unfold issue_records in *. apply Forall_forall. intros l' Hin.
      unfold obj. rewrite Hw1 by (by intros ->).
      by apply (proj1 (Forall_forall _ _) Htl l'). }
    destruct (IH w1 Hnd Hrec1) as (w' & Hloop & Hmap).
    destruct (mark_loop_spec matches new_status stamp new_nonempty new_settled
                empty_unmatched stamp_name rest w1 Hrec1) as (w'' & Hloop' & _ & Hres).
    rewrite Hloop in Hloop'. injection Hloop' as <-.
    exists w'. erewrite bind_ok by exact Hrun. split; [done|].
    rewrite Hmap, (Hsame w1 Hw1). f_equal.
    unfold obj at 1.
    rewrite (mark_result_miss matches new_status stamp rest w1 w' l Hres) by (by left).
    simpl. rewrite list_lookup_insert_eq; [done|]. by eapply lookup_lt_Some.
  - rewrite (bind_ok _ _ w w tt)
      by (by apply (mark_body_skip matches new_status stamp)).
    destruct (IH w Hnd Htl) as (w' & Hloop & Hmap).
    destruct (mark_loop_spec matches new_status stamp new_nonempty new_settled
                empty_unmatched stamp_name rest w Htl) as (w'' & Hloop' & _ & Hres).
    rewrite Hloop in Hloop'. injection Hloop' as <-.
    exists w'. split; [done|]. rewrite Hmap. f_equal.
    unfold obj.
    by rewrite (mark_result_miss matches new_status stamp rest w w' l Hres) by (by left).
Qed.

Lemma mark_all_mappings (clk : nat → string) (xs : list json) : ∀ n : nat,
  Forall (λ x, Is_true (is_mapping x && status_readable x)) xs →
  Forall (λ x, Is_true (is_mapping x && status_readable x))
         (mark_all matches new_status stamp clk n xs).
Proof.
  induction xs as [|x xs IH]; intros n Hall; [done|].
  apply Forall_cons in Hall as [Hx Hxs]. simpl.
  destruct (matches (normalized_status x)); apply Forall_cons; split; auto.
  apply andb_prop_intro. split.
  - destruct x as [| | | | | |fields]; try done.
    unfold marked. cbv zeta. by destruct (_ !! stamp).
  - by apply (marked_readable new_status stamp).
Qed.

(** Marking what has been marked changes nothing. *)
Lemma mark_all_settled (clk clk' : nat → string) (xs : list json) : ∀ n n' : nat,
  mark_all matches new_status stamp clk' n'
           (mark_all matches new_status stamp clk n xs)
  = mark_all matches new_status stamp clk n xs.
Proof.
  induction xs as [|x xs IH]; intros n n'; [done|]. simpl.
  destruct (matches (normalized_status x)) eqn:Hm; simpl.
  - destruct (matched_is_mapping matches empty_unmatched _ Hm) as [fields ->].
    rewrite (marked_status new_status stamp new_nonempty stamp_name), new_settled.
    by rewrite IH.
  - by rewrite Hm, IH.
Qed.

End MarkMap.

Section Persisted.

Context `{codec : JsonCodec}.

(** A mutation operation that loads the issues itself, as a map over the
    records of the file. *)
Lemma mark_from_file_map
    (matches : string → bool) (new_status stamp : string)
    (operation : option (list loc) → option string → M (list loc))
    (file_path : option string) (w : world)
    (p : path) (text : string) (items : list json) :
  Text.lower (Text.strip new_status) ≠ "" →
  matches (Text.lower (Text.strip new_status)) = false →
  matches "" = false →
  stamp ≠ "status" ∧ stamp ≠ "state" →
  (∀ w0, operation None file_path w0 =
         (issues ← load_issues file_path;
          for_each (mark_body matches new_status stamp) issues ;;
          (save_issues issues file_path ;; mret tt) ;;
          mret issues) w0) →
  find_issues_file_in (fs w) (environ w) (module_root w)
                      file_path None DEFAULT_ISSUE_FILE_CANDIDATES = Ok p →
  FS.walk (fs w) p = Some (File text) →
  json_load text = Some (JArr items) →
  Forall (λ x, Is_true (is_mapping x && status_readable x)) items →
  ∃ (issues : list loc) (w' : world),
    operation None file_path w = (Ok issues, w') ∧
    map (obj (heap w')) issues
    = mark_all matches new_status stamp (clock w) (ticks w) items ∧
    fs w' = FS.write (fs w) p
              (json_dump (JArr (mark_all matches new_status stamp
                                         (clock w) (ticks w) items))
               +:+ String "010"%char EmptyString) ∧
    environ w' = environ w ∧ module_root w' = module_root w ∧ clock w' = clock w.
Proof.
  intros H1 H2 H3 H4 Hop Hfind Hwalk Hload Hitems.
  set (issues := seq (length (heap w)) (length items)).
  set (w1 := set_heap (heap w ++ items) w).
  assert (load_issues file_path w = (Ok issues, w1)) as Hrun.
  { rewrite load_issues_run, Hfind, Hwalk, Hload.
    assert (forallb is_mapping items = true) as ->; [|done].
    apply Is_true_true, forallb_True.
    eapply Forall_impl; [exact Hitems|]. by intros x [? _]%andb_prop_elim. }
  assert (map (obj (heap w1)) issues = items) as Hobjs by apply obj_alloc.
  assert (issue_records (heap w1) issues) as Hrec.
  { unfold issue_records.
    apply (Forall_fmap (obj (heap w1)) (λ x, Is_true (status_readable x))).
    change (fmap (obj (heap w1)) issues) with (map (obj (heap w1)) issues).
    rewrite Hobjs.
    eapply Forall_impl; [exact Hitems|]. by intros x [_ ?]%andb_prop_elim. }
  destruct (mark_loop_map matches new_status stamp H1 H2 H3 H4 issues w1
              (NoDup_seq _ _) Hrec) as (w2 & Hloop & Hmap).
  destruct (mark_loop_spec matches new_status stamp H1 H2 H3 H4 issues w1 Hrec)
    as (w2' & Hloop' & _ & Hfs & Henv & Hroot & Hclock & _).
  rewrite Hloop in Hloop'. injection Hloop' as <-.
  rewrite Hobjs in Hmap. change (clock w1) with (clock w) in Hmap.
  change (ticks w1) with (ticks w) in Hmap.
  eexists issues, _. split.
  - rewrite Hop.
    erewrite bind_ok by exact Hrun.
    erewrite bind_ok by exact Hloop.
    erewrite (bind_ok _ _ w2 _ tt); [done|].
    erewrite bind_ok; [done|].
    apply (save_issues_run issues file_path w2 p text).
    + by rewrite Hfs, Henv, Hroot.
    + by rewrite Hfs.
  - simpl. rewrite Hmap, Hfs. done.
Qed.

(** X20.  On a sequence in which no record occurs twice, a mutation operation
    is a map: each record whose status matches is marked with the next
    reading of the clock, in the order of the sequence, and the others
    are kept. *)
Theorem mutations_map_unshared_records
    (issues : list loc) (file_path : option string) (w : world) :
  NoDup issues →
  issue_records (heap w) issues →
  (∃ w' : world,
     close_implemented_issues (Some issues) file_path w = (Ok issues, w') ∧
     map (obj (heap w')) issues
     = mark_all is_implemented "closed" "closed_at" (clock w) (ticks w)
                (map (obj (heap w)) issues)) ∧
  (∃ w' : world,
     complete_open_issues (Some issues) file_path w = (Ok issues, w') ∧
     map (obj (heap w')) issues
     = mark_all is_open_or_opened "completed" "completed_at" (clock w) (ticks w)
                (map (obj (heap w)) issues)).
Proof.
  intros Hnd Hrec. split.
  - destruct (mark_loop_map is_implemented "closed" "closed_at"
                ltac:(done) ltac:(done) ltac:(done) ltac:(done) issues w Hnd Hrec)
      as (w' & Hrun & Hmap).
    exists w'. split; [|done].
    unfold close_implemented_issues. rewrite close_body_is_mark.
    rewrite (bind_ok _ _ w w (issues, false)) by done.
    by erewrite bind_ok by exact Hrun.
  - destruct (mark_loop_map is_open_or_opened "completed" "completed_at"
                ltac:(done) ltac:(done) ltac:(done) ltac:(done) issues w Hnd Hrec)
      as (w' & Hrun & Hmap).
    exists w'. split; [|done].
    unfold complete_open_issues. rewrite complete_body_is_mark.
    rewrite (bind_ok _ _ w w (issues, false)) by done.
    by erewrite bind_ok by exact Hrun.
Qed.

(** X21.  What [close_implemented_issues()] writes is what [load_issues]
    reads next, and a second call changes nothing in the file.  When the issues file
    holds a list of issue records and the JSON library reads back the
    list that is written, [close_implemented_issues()] rewrites the file
    with the records of the file, the implemented ones closed; loading
    afterwards yields the records the call returned, and calling it again
    returns the same records and leaves the file system as it is. *)
Theorem close_from_file_persists
    (file_path : option string) (w : world)
    (p : path) (text : string) (items : list json) :
  let closed := mark_all is_implemented "closed" "closed_at"
                         (clock w) (ticks w) items in
  find_issues_file_in (fs w) (environ w) (module_root w)
                      file_path None DEFAULT_ISSUE_FILE_CANDIDATES = Ok p →
  FS.walk (fs w) p = Some (File text) →
  json_load text = Some (JArr items) →
  Forall (λ x, Is_true (is_mapping x && status_readable x)) items →
  json_load (json_dump (JArr closed) +:+ String "010"%char EmptyString)
    = Some (JArr closed) →
  ∃ (issues : list loc) (w' : world),
    close_implemented_issues None file_path w = (Ok issues, w') ∧
    map (obj (heap w')) issues = closed ∧
    (∃ (loaded : list loc) (w'' : world),
       load_issues file_path w' = (Ok loaded, w'') ∧
       map (obj (heap w'')) loaded = closed) ∧
    (∃ (again : list loc) (w'' : world),
       close_implemented_issues None file_path w' = (Ok again, w'') ∧
       map (obj (heap w'')) again = closed ∧
       fs w'' = fs w').
Proof.
  intros closed Hfind Hwalk Hload Hitems Hcodec.
  destruct (mark_from_file_map is_implemented "closed" "closed_at"
              close_implemented_issues file_path w p text items)
    as (issues & w' & Hrun & Hmap & Hfs & Henv & Hroot & Hclock); try done.
  { apply close_from_file_unfold. }
  fold closed in Hmap, Hfs.
  assert (FS.is_file (fs w) p = true) as Hfile by (unfold FS.is_file; by rewrite Hwalk).
  assert (find_issues_file_in (fs w') (environ w') (module_root w')
            file_path None DEFAULT_ISSUE_FILE_CANDIDATES = Ok p) as Hfind'.
  { by rewrite Hfs, Henv, Hroot, find_issues_file_in_write. }
  assert (FS.walk (fs w') p
          = Some (File (json_dump (JArr closed) +:+ String "010"%char EmptyString)))
    as Hwalk'.
  { rewrite Hfs. by apply walk_write_same. }
  assert (Forall (λ x, Is_true (is_mapping x && status_readable x)) closed) as Hclosed.
  { by apply mark_all_mappings. }
  exists issues, w'. split; [done|]. split; [done|]. split.
  - rewrite load_issues_run, Hfind', Hwalk', Hcodec.
    assert (forallb is_mapping closed = true) as ->.
    { apply Is_true_true, forallb_True.
      eapply Forall_impl; [exact Hclosed|]. by intros x [? _]%andb_prop_elim. }
    eexists _, _. split; [done|]. apply obj_alloc.
  - destruct (mark_from_file_map is_implemented "closed" "closed_at"
                close_implemented_issues file_path w' p
                (json_dump (JArr closed) +:+ String "010"%char EmptyString) closed)
      as (again & w'' & Hrun2 & Hmap2 & Hfs2 & _); try done.
    { apply close_from_file_unfold. }
    assert (mark_all is_implemented "closed" "closed_at" (clock w') (ticks w') closed
            = closed) as Hsettled.
    { by apply (mark_all_settled is_implemented "closed" "closed_at"). }
    rewrite Hsettled in Hmap2, Hfs2.
    exists again, w''. split; [done|]. split; [done|].
    rewrite Hfs2, Hfs. apply write_write.
Qed.

(** X22.  What [complete_open_issues()] writes is what [load_issues]
    reads next, and a second call changes nothing in the file.  When the
    issues file holds a list of issue records and the JSON library reads
    back the list that is written, the call rewrites the file with the
    records of the file, the open and opened ones completed; loading
    afterwards yields the records the call returned, and calling it again
    returns the same records and leaves the file system as it is. *)
Theorem complete_from_file_persists
    (file_path : option string) (w : world)
    (p : path) (text : string) (items : list json) :
  let completed := mark_all is_open_or_opened "completed" "completed_at"
                            (clock w) (ticks w) items in
  find_issues_file_in (fs w) (environ w) (module_root w)
                      file_path None DEFAULT_ISSUE_FILE_CANDIDATES = Ok p →
  FS.walk (fs w) p = Some (File text) →
  json_load text = Some (JArr items) →
  Forall (λ x, Is_true (is_mapping x && status_readable x)) items →
  json_load (json_dump (JArr completed) +:+ String "010"%char EmptyString)
    = Some (JArr completed) →
  ∃ (issues : list loc) (w' : world),
    complete_open_issues None file_path w = (Ok issues, w') ∧
    map (obj (heap w')) issues = completed ∧
    (∃ (loaded : list loc) (w'' : world),
       load_issues file_path w' = (Ok loaded, w'') ∧
       map (obj (heap w'')) loaded = completed) ∧
    (∃ (again : list loc) (w'' : world),
       complete_open_issues None file_path w' = (Ok again, w'') ∧
       map (obj (heap w'')) again = completed ∧
       fs w'' = fs w').
Proof.
  intros completed Hfind Hwalk Hload Hitems Hcodec.
  destruct (mark_from_file_map is_open_or_opened "completed" "completed_at"
              complete_open_issues file_path w p text items)
    as (issues & w' & Hrun & Hmap & Hfs & Henv & Hroot & Hclock); try done.
  { apply complete_from_file_unfold. }
  fold completed in Hmap, Hfs.
  assert (FS.is_file (fs w) p = true) as Hfile by (unfold FS.is_file; by rewrite Hwalk).
  assert (find_issues_file_in (fs w') (environ w') (module_root w')
            file_path None DEFAULT_ISSUE_FILE_CANDIDATES = Ok p) as Hfind'.
  { by rewrite Hfs, Henv, Hroot, find_issues_file_in_write. }
  assert (FS.walk (fs w') p
          = Some (File (json_dump (JArr completed) +:+ String "010"%char EmptyString)))
    as Hwalk'.
  { rewrite Hfs. by apply walk_write_same. }
  assert (Forall (λ x, Is_true (is_mapping x && status_readable x)) completed)
    as Hcompleted.
  { by apply mark_all_mappings. }
  exists issues, w'. split; [done|]. split; [done|]. split.
  - rewrite load_issues_run, Hfind', Hwalk', Hcodec.
    assert (forallb is_mapping completed = true) as ->.
    { apply Is_true_true, forallb_True.
      eapply Forall_impl; [exact Hcompleted|]. by intros x [? _]%andb_prop_elim. }
    eexists _, _. split; [done|]. apply obj_alloc.
  - destruct (mark_from_file_map is_open_or_opened "completed" "completed_at"
                complete_open_issues file_path w' p
                (json_dump (JArr completed) +:+ String "010"%char EmptyString)
                completed)
      as (again & w'' & Hrun2 & Hmap2 & Hfs2 & _); try done.
    { apply complete_from_file_unfold. }
    assert (mark_all is_open_or_opened "completed" "completed_at"
                     (clock w') (ticks w') completed = completed) as Hsettled.
    { by apply (mark_all_settled is_open_or_opened "completed" "completed_at"). }
    rewrite Hsettled in Hmap2, Hfs2.
    exists again, w''. split; [done|]. split; [done|].
    rewrite Hfs2, Hfs. apply write_write.
Qed.

(** X23.  An explicit path that names no regular file stops every function
    that has to open the file: [load_issues], [save_issues] (which does
    not create the file) and the three operations called without a
    sequence raise [FileNotFoundError] and leave the store as it was,
    whatever the environment variable and the candidates would give.
    With a sequence supplied the path is not looked at. *)
Theorem missing_explicit_file
    (explicit_path : string) (issues : list loc) (w : world) :
  FS.is_file (fs w) (FS.Path explicit_path) = false →
  load_issues (Some explicit_path) w = (Raise FileNotFoundError, w) ∧
  save_issues issues (Some explicit_path) w = (Raise FileNotFoundError, w) ∧
  list_open_issues None (Some explicit_path) w = (Raise FileNotFoundError, w) ∧
  close_implemented_issues None (Some explicit_path) w = (Raise FileNotFoundError, w) ∧
  complete_open_issues None (Some explicit_path) w = (Raise FileNotFoundError, w) ∧
  list_open_issues (Some issues) (Some explicit_path) w
    = list_open_issues (Some issues) None w ∧
  close_implemented_issues (Some issues) (Some explicit_path) w
    = close_implemented_issues (Some issues) None w ∧
  complete_open_issues (Some issues) (Some explicit_path) w
    = complete_open_issues (Some issues) None w.
Proof.
  intros Hno.
  assert (load_issues (Some explicit_path) w = (Raise FileNotFoundError, w)) as Hload.
  { rewrite load_issues_run. simpl. by rewrite Hno. }
  split; [done|]. split.
  { unfold save_issues. apply bind_raise.
    unfold find_issues_file, lift. simpl. by rewrite Hno. }
  split; [by apply bind_raise|].
  split.
  { rewrite close_from_file_unfold. by apply bind_raise. }
  split.
  { rewrite complete_from_file_unfold. by apply bind_raise. }
  done.
Qed.

End Persisted.

(** ** The theorems on the fixture *)

Section OnTheFixture.

#[local] Existing Instance Fixture.codec.

Lemma fixture_records : issue_records (heap Fixture.store) Fixture.issues.
Proof.
  unfold issue_records, Fixture.issues.
  repeat (apply Forall_cons; split; [by vm_compute|]). by apply Forall_nil.
Defined.

(** The test [test_list_open_issues]: exactly the first issue is open. *)
Lemma list_open_issues_selects_witness :
  issue_records (heap Fixture.store) Fixture.issues ∧
  list_open_issues (Some Fixture.issues) None Fixture.store
    = (Ok [0], Fixture.store).
Proof.
  split; [exact fixture_records|].
  exact (list_open_issues_selects Fixture.issues None Fixture.store fixture_records).
Defined.

Lemma close_implemented_issues_closes_witness :
  issue_records (heap Fixture.store) Fixture.issues ∧
  ∃ w' : world,
    close_implemented_issues (Some Fixture.issues) None Fixture.store
      = (Ok Fixture.issues, w') ∧
    ∃ fields' : gmap string json,
      heap w' !! 1 = Some (JObj fields') ∧
      fields' !! "status" = Some (JStr "closed") ∧
      fields' !! "state" = Some (JStr "closed") ∧
      is_Some (fields' !! "closed_at").
Proof.
  split; [exact fixture_records|].
  destruct (close_implemented_issues_closes Fixture.issues None Fixture.store
              fixture_records) as (w' & Hrun & Hhit).
  exists w'. split; [exact Hrun|].
  destruct (Hhit 1 Fixture.second) as (fields & fields' & _ & Hl & Hs & Hst & Hts).
  - unfold Fixture.issues. apply elem_of_cons. right. apply elem_of_cons. by left.
  - reflexivity.
  - reflexivity.
  - exists fields'. repeat split; try done.
    destruct (fields !! "closed_at"); [by eexists|].
    destruct Hts as (n & _ & Hn). by eexists.
Defined.

Lemma complete_open_issues_completes_witness :
  issue_records (heap Fixture.store) Fixture.issues ∧
  ∃ w' : world,
    complete_open_issues (Some Fixture.issues) None Fixture.store
      = (Ok Fixture.issues, w') ∧
    (∃ fields' : gmap string json,
       heap w' !! 0 = Some (JObj fields') ∧
       fields' !! "status" = Some (JStr "completed") ∧
       fields' !! "state" = Some (JStr "completed") ∧
       is_Some (fields' !! "completed_at")) ∧
    heap w' !! 1 = Some Fixture.second ∧
    heap w' !! 2 = Some Fixture.third.
Proof.
  split; [exact fixture_records|].
  destruct (complete_open_issues_completes Fixture.issues None Fixture.store
              fixture_records) as (w' & Hrun & Hhit & Hmiss & _).
  exists w'. split; [exact Hrun|]. split; [|split].
  - destruct (Hhit 0 Fixture.first) as (fields & fields' & _ & Hl & Hs & Hst & Hts).
    + unfold Fixture.issues. apply elem_of_cons. by left.
    + reflexivity.
    + vm_compute. apply elem_of_cons. by left.
    + exists fields'. repeat split; try done.
      destruct (fields !! "completed_at"); [by eexists|].
      destruct Hts as (n & _ & Hn). by eexists.
  - apply Hmiss; [reflexivity|]. compute_done.
  - apply Hmiss; [reflexivity|]. compute_done.
Defined.

Lemma mutations_frame_witness :
  issue_records (heap Fixture.store) Fixture.issues ∧
  ∃ w' : world,
    close_implemented_issues (Some Fixture.issues) None Fixture.store
      = (Ok Fixture.issues, w') ∧
    length (heap w') = 3 ∧
    heap w' !! 0 = Some Fixture.first ∧
    heap w' !! 2 = Some Fixture.third ∧
    ∃ x', heap w' !! 1 = Some x' ∧ same_but_status "closed_at" Fixture.second x'.
Proof.
  split; [exact fixture_records|].
  destruct (mutations_frame Fixture.issues None Fixture.store fixture_records)
    as [(w' & Hrun & Hlen & Hfr) _].
  exists w'. split; [exact Hrun|]. split; [exact Hlen|]. split; [|split].
  - apply (Hfr 0 Fixture.first); [reflexivity|]. right. compute_done.
  - apply (Hfr 2 Fixture.third); [reflexivity|]. right. compute_done.
  - apply (Hfr 1 Fixture.second). reflexivity.
Defined.

Lemma mutations_idempotent_witness :
  issue_records (heap Fixture.store) Fixture.issues ∧
  (∃ w' : world,
     close_implemented_issues (Some Fixture.issues) None Fixture.store
       = (Ok Fixture.issues, w') ∧
     close_implemented_issues (Some Fixture.issues) None w' = (Ok Fixture.issues, w')) ∧
  (∃ w' : world,
     complete_open_issues (Some Fixture.issues) None Fixture.store
       = (Ok Fixture.issues, w') ∧
     complete_open_issues (Some Fixture.issues) None w' = (Ok Fixture.issues, w')).
Proof.
  split; [exact fixture_records|].
  destruct (mutations_idempotent Fixture.issues None Fixture.store fixture_records)
    as [(w1 & Hrun1 & _ & Hagain1) (w2 & Hrun2 & _ & Hagain2)].
  split; [by exists w1|by exists w2].
Defined.

Lemma odd_records : issue_records (heap Fixture.store_with_odd_records) [0; 1; 2; 3].
Proof.
  unfold issue_records.
  repeat (apply Forall_cons; split; [by vm_compute|]). by apply Forall_nil.
Defined.

(** The example of the claim: status [closed], state [open]. *)
Lemma state_ignored_when_status_given_witness :
  issue_records (heap Fixture.store_with_odd_records) [0; 1; 2; 3] ∧
  (∃ found : list loc,
     list_open_issues (Some [0; 1; 2; 3]) None Fixture.store_with_odd_records
       = (Ok found, Fixture.store_with_odd_records) ∧ 3 ∉ found) ∧
  (∃ w' : world,
     close_implemented_issues (Some [0; 1; 2; 3]) None Fixture.store_with_odd_records
       = (Ok [0; 1; 2; 3], w') ∧
     heap w' !! 3 = Some Fixture.closed_but_open) ∧
  (∃ w' : world,
     complete_open_issues (Some [0; 1; 2; 3]) None Fixture.store_with_odd_records
       = (Ok [0; 1; 2; 3], w') ∧
     heap w' !! 3 = Some Fixture.closed_but_open).
Proof.
  split; [exact odd_records|].
  destruct (state_ignored_when_status_given [0; 1; 2; 3] None
              Fixture.store_with_odd_records 3
              (list_to_map [("id", JInt 4); ("status", JStr "closed");
                            ("state", JStr "open")])
              "closed" odd_records)
    as ((found & Hlist & Hiff) & (w1 & Hrun1 & Hkeep1 & _) & (w2 & Hrun2 & Hkeep2 & _)).
  - compute_done.
  - reflexivity.
  - reflexivity.
  - compute_done.
  - split; [|split].
    + exists found. split; [exact Hlist|]. intros Hin. apply Hiff in Hin.
      revert Hin. compute_done.
    + exists w1. split; [exact Hrun1|]. apply Hkeep1. compute_done.
    + exists w2. split; [exact Hrun2|]. apply Hkeep2. compute_done.
Defined.

(** A status that is a number is outside the data model: the lookup
    raises, and so do the three operations. *)
Lemma status_number_raises :
  list_open_issues (Some [4]) None Fixture.store_with_odd_records
    = (Raise AttributeError, Fixture.store_with_odd_records) ∧
  close_implemented_issues (Some [4]) None Fixture.store_with_odd_records
    = (Raise AttributeError, Fixture.store_with_odd_records) ∧
  complete_open_issues (Some [4]) None Fixture.store_with_odd_records
    = (Raise AttributeError, Fixture.store_with_odd_records).
Proof. repeat split; reflexivity. Qed.

Lemma fixture_found :
  find_issues_file_in (fs Fixture.store) (environ Fixture.store)
                      (module_root Fixture.store) None None
                      DEFAULT_ISSUE_FILE_CANDIDATES = Ok ["tmp"; "git_issues.json"].
Proof. reflexivity. Defined.

Lemma fixture_items :
  Forall (λ x, Is_true (is_mapping x && status_readable x))
         [Fixture.first; Fixture.second; Fixture.third].
Proof.
  repeat (apply Forall_cons; split; [by vm_compute|]). by apply Forall_nil.
Defined.

(** The tests call the operations without a sequence: the file is
    rewritten; with the sequence supplied it is not. *)
Lemma persists_iff_not_supplied_witness :
  fs (close_implemented_issues (Some Fixture.issues) None Fixture.store).2
    = Fixture.tree ∧
  ∃ (issues : list loc) (w' : world),
    close_implemented_issues None None Fixture.store = (Ok issues, w') ∧
    fs w' = FS.write Fixture.tree ["tmp"; "git_issues.json"]
              (json_dump (JArr (map (obj (heap w')) issues))
               +:+ String "010"%char EmptyString).
Proof.
  destruct (persists_iff_not_supplied None Fixture.store) as [Hgiven Hfile].
  split; [apply (Hgiven Fixture.issues)|].
  apply (Hfile ["tmp"; "git_issues.json"] Fixture.text
               [Fixture.first; Fixture.second; Fixture.third]).
  - exact fixture_found.
  - reflexivity.
  - reflexivity.
  - exact fixture_items.
Defined.

Lemma save_then_load_round_trip_witness :
  ∃ (w1 w2 : world) (loaded : list loc),
    save_issues Fixture.issues None Fixture.store
      = (Ok ["tmp"; "git_issues.json"], w1) ∧
    load_issues None w1 = (Ok loaded, w2) ∧
    map (obj (heap w2)) loaded = [Fixture.first; Fixture.second; Fixture.third] ∧
    map (obj (heap w2)) Fixture.issues
      = [Fixture.first; Fixture.second; Fixture.third].
Proof.
  apply (save_then_load_round_trip Fixture.issues None Fixture.store
           ["tmp"; "git_issues.json"]).
  - exact fixture_found.
  - reflexivity.
  - unfold Fixture.issues.
    repeat (apply Forall_cons; split; [by vm_compute|]). by apply Forall_nil.
  - reflexivity.
Defined.

Lemma load_issues_format_witness :
  (load_issues None Fixture.store).1 ≠ Raise ValueError ∧
  ∃ (loaded : list loc) (w' : world),
    load_issues None Fixture.store = (Ok loaded, w') ∧
    map (obj (heap w')) loaded = [Fixture.first; Fixture.second; Fixture.third] ∧
    fs w' = Fixture.tree.
Proof.
  destruct (load_issues_format None Fixture.store ["tmp"; "git_issues.json"]
              Fixture.text (JArr [Fixture.first; Fixture.second; Fixture.third]))
    as [Hiff Hok].
  - exact fixture_found.
  - reflexivity.
  - reflexivity.
  - split.
    + intros Hraise. apply Hiff in Hraise. apply Hraise.
      eexists. split; [reflexivity|].
      repeat (apply Forall_cons; split; [by vm_compute|]). by apply Forall_nil.
    + destruct (Hok _ eq_refl) as (loaded & w' & Hrun & Hobjs & Hfs & _).
      { repeat (apply Forall_cons; split; [by vm_compute|]). by apply Forall_nil. }
      by exists loaded, w'.
Defined.

(** The three tests of [tests/test_git_issues.py], run on the fixture. *)
Lemma test_list_open_issues :
  ∃ found w',
    list_open_issues None None Fixture.store = (Ok found, w') ∧
    map (λ l, dict_get (obj (heap w') l) "id") found = [JInt 1].
Proof. eexists _, _. split; reflexivity. Qed.

Lemma test_close_implemented_issues :
  ∃ issues w',
    close_implemented_issues None None Fixture.store = (Ok issues, w') ∧
    map (λ l, (dict_get (obj (heap w') l) "id",
               dict_get (obj (heap w') l) "status",
               dict_get (obj (heap w') l) "state",
               dict_get (obj (heap w') l) "closed_at")) issues
    = [(JInt 1, JStr "open", JNull, JNull);
       (JInt 2, JStr "closed", JStr "closed", JStr "2024-01-01T00:00:00+00:00");
       (JInt 3, JNull, JStr "closed", JNull)].
Proof. eexists _, _. split; reflexivity. Qed.

Lemma test_complete_open_issues :
  ∃ issues w',
    complete_open_issues None None Fixture.store = (Ok issues, w') ∧
    map (λ l, (dict_get (obj (heap w') l) "id",
               dict_get (obj (heap w') l) "status",
               dict_get (obj (heap w') l) "state",
               dict_get (obj (heap w') l) "completed_at")) issues
    = [(JInt 1, JStr "completed", JStr "completed", JStr "2024-01-01T00:00:00+00:00");
       (JInt 2, JStr "implemented", JNull, JNull);
       (JInt 3, JNull, JStr "closed", JNull)].
Proof. eexists _, _. split; reflexivity. Qed.

End OnTheFixture.

(** ** The further theorems on concrete stores *)

Section OnConcreteStores.

#[local] Existing Instance Fixture.codec.

Lemma normalise_status_insensitive_witness :
  _normalise_status (JStr (" " +:+ "OPEN" +:+ String "009"%char " ")) Fixture.store
  = _normalise_status (JStr "open") Fixture.store.
Proof.
  apply (normalise_status_insensitive " " "OPEN" "open" (String "009"%char " "));
    reflexivity || exact I.
Defined.

Lemma find_issues_file_result_exists_witness :
  FS.exists_ Fixture.tree ["tmp"; "git_issues.json"] = true.
Proof.
  apply (find_issues_file_result_exists Fixture.tree (environ Fixture.store) ["repo"]
           None None DEFAULT_ISSUE_FILE_CANDIDATES).
  - exact I.
  - reflexivity.
Defined.

Lemma find_issues_file_ignores_contents_witness :
  find_issues_file_in Fixture.tree ∅ [] None (Some "tmp") DEFAULT_ISSUE_FILE_CANDIDATES
  = find_issues_file_in (FS.write Fixture.tree ["tmp"; "git_issues.json"] "[]")
                        ∅ [] None (Some "tmp") DEFAULT_ISSUE_FILE_CANDIDATES.
Proof. apply find_issues_file_ignores_contents. reflexivity. Defined.

Lemma find_issues_file_skips_unusable_env_witness :
  find_issues_file_in Fixture.tree {["GIT_ISSUES_FILE" := "/tmp/missing.json"]} []
                      None (Some "tmp") DEFAULT_ISSUE_FILE_CANDIDATES
  = find_issues_file_in Fixture.tree
      (delete "GIT_ISSUES_FILE" {["GIT_ISSUES_FILE" := "/tmp/missing.json"]}) []
      None (Some "tmp") DEFAULT_ISSUE_FILE_CANDIDATES.
Proof.
  apply find_issues_file_skips_unusable_env.
  intros s Hs. apply lookup_singleton_Some in Hs as [_ <-]. by right.
Defined.

Lemma find_issues_file_prefers_root_witness :
  find_issues_file_in More.root_tree ∅ [] None None DEFAULT_ISSUE_FILE_CANDIDATES
  = Ok ["GitIssues.json"].
Proof.
  apply (find_issues_file_prefers_root More.root_tree ∅ [] None
           ["git_issues.json"] ["issues.json"; "git-issues.json"; "Git Issues.json"]
           "GitIssues.json").
  - intros s Hs. by rewrite lookup_empty in Hs.
  - intros b Hb. apply list_elem_of_singleton in Hb as ->. reflexivity.
  - reflexivity.
Defined.

Lemma find_issues_file_prefers_git_dir_witness :
  find_issues_file_in More.git_tree ∅ [] None None DEFAULT_ISSUE_FILE_CANDIDATES
  = Ok [".git"; "issues.json"].
Proof.
  apply (find_issues_file_prefers_git_dir More.git_tree ∅ [] None
           ["git_issues.json"; "GitIssues.json"] ["git-issues.json"; "Git Issues.json"]
           "issues.json").
  - intros s Hs. by rewrite lookup_empty in Hs.
  - intros b Hb. simpl in Hb.
    repeat (apply elem_of_cons in Hb as [->|Hb]; [reflexivity|]).
    by apply elem_of_nil in Hb.
  - intros b Hb.
    repeat (apply elem_of_cons in Hb as [->|Hb]; [reflexivity|]).
    by apply elem_of_nil in Hb.
  - reflexivity.
Defined.

Lemma find_issues_file_finds_deep_candidate_witness :
  ∃ p, find_issues_file_in Fixture.deep_tree ∅ [] None None
                           DEFAULT_ISSUE_FILE_CANDIDATES = Ok p.
Proof.
  apply (find_issues_file_finds_deep_candidate Fixture.deep_tree ∅ [] None
           DEFAULT_ISSUE_FILE_CANDIDATES Fixture.deep_tree (File "[]")
           ["a"; "b"; "c"; "d"; "issues.json"]).
  - reflexivity.
  - reflexivity.
  - done.
  - compute_done.
  - reflexivity.
Defined.

Lemma find_issues_file_scan_needs_json_witness :
  ∃ c, c ∈ ["issues.txt"] ∧
       (["issues.txt"] = [] ++ FS.Path c ∨ ["issues.txt"] = ([] ++ [".git"]) ++ FS.Path c).
Proof.
  apply (find_issues_file_scan_needs_json More.text_tree ∅ [] None ["issues.txt"]
           ["issues.txt"]).
  - intros s Hs. by rewrite lookup_empty in Hs.
  - intros c Hc. apply list_elem_of_singleton in Hc as ->. reflexivity.
  - reflexivity.
Defined.

Lemma more_records : issue_records (heap More.store) More.issues.
Proof.
  unfold issue_records, More.issues.
  repeat (apply Forall_cons; split; [by vm_compute|]). by apply Forall_nil.
Defined.

Lemma list_open_issues_raises_iff_witness :
  list_open_issues (Some [0; 5]) None More.store = (Raise AttributeError, More.store).
Proof.
  destruct (list_open_issues_raises_iff [0; 5] None More.store) as ([_ Hraise] & _ & Hw).
  apply injective_projections; simpl.
  - apply Hraise. intros Hrec. apply Forall_cons in Hrec as [_ Hrec].
    apply Forall_cons in Hrec as [Hbad _]. by vm_compute in Hbad.
  - exact Hw.
Defined.

Lemma list_open_issues_from_file_witness :
  ∃ (found : list loc) (w' : world),
    list_open_issues None None Fixture.store = (Ok found, w') ∧
    map (obj (heap w')) found = [Fixture.first] ∧
    fs w' = Fixture.tree.
Proof.
  apply (list_open_issues_from_file None Fixture.store ["tmp"; "git_issues.json"]
           Fixture.text [Fixture.first; Fixture.second; Fixture.third]).
  - exact fixture_found.
  - reflexivity.
  - reflexivity.
  - exact fixture_items.
Defined.


Lemma save_issues_rewrites_one_file_witness :
  ∃ w1 : world,
    save_issues Fixture.issues None Fixture.store
      = (Ok ["tmp"; "git_issues.json"], w1) ∧
    heap w1 = heap Fixture.store ∧
    save_issues Fixture.issues None w1 = (Ok ["tmp"; "git_issues.json"], w1).
Proof.
  destruct (save_issues_rewrites_one_file Fixture.issues None Fixture.store
              ["tmp"; "git_issues.json"] fixture_found eq_refl)
    as (w1 & Hrun & Hheap & _ & _ & _ & Hagain).
  by exists w1.
Defined.

Lemma mutations_stop_at_unreadable_record_witness :
  ∃ w1 : world,
    close_implemented_issues (Some [1]) None More.store = (Ok [1], w1) ∧
    close_implemented_issues (Some ([1] ++ 5 :: [0])) None More.store
    = (Raise AttributeError, w1).
Proof.
  apply (mutations_stop_at_unreadable_record [1] [0] 5 None More.store).
  - apply Forall_cons. split; [by vm_compute|]. by apply Forall_nil.
  - by vm_compute.
Defined.

Lemma complete_then_list_open_witness :
  ∃ w' : world,
    complete_open_issues (Some More.issues) None More.store = (Ok More.issues, w') ∧
    list_open_issues (Some More.issues) None w' = (Ok [4], w').
Proof.
  exact (complete_then_list_open More.issues None More.store more_records).
Defined.

Lemma close_keeps_open_issues_witness :
  ∃ w' : world,
    close_implemented_issues (Some More.issues) None More.store = (Ok More.issues, w') ∧
    (list_open_issues (Some More.issues) None w').1 = Ok [0; 4].
Proof.
  exact (close_keeps_open_issues More.issues None More.store more_records).
Defined.

Lemma issues_without_status_are_skipped_witness :
  (∃ found : list loc,
     list_open_issues (Some More.issues) None More.store = (Ok found, More.store) ∧
     3 ∉ found) ∧
  (∃ w' : world,
     close_implemented_issues (Some More.issues) None More.store = (Ok More.issues, w') ∧
     heap w' !! 3 = Some More.bare) ∧
  (∃ w' : world,
     complete_open_issues (Some More.issues) None More.store = (Ok More.issues, w') ∧
     heap w' !! 3 = Some More.bare).
Proof.
  exact (issues_without_status_are_skipped More.issues None More.store 3
           more_records eq_refl eq_refl).
Defined.

Lemma mutations_map_unshared_records_witness :
  ∃ w' : world,
    close_implemented_issues (Some Fixture.issues) None Fixture.store
      = (Ok Fixture.issues, w') ∧
    map (obj (heap w')) Fixture.issues = More.closed_items.
Proof.
  destruct (mutations_map_unshared_records Fixture.issues None Fixture.store)
    as [Hclose _].
  - unfold Fixture.issues. compute_done.
  - exact fixture_records.
  - exact Hclose.
Defined.

Lemma missing_explicit_file_witness :
  load_issues (Some "/tmp/missing.json") Fixture.store
    = (Raise FileNotFoundError, Fixture.store) ∧
  save_issues Fixture.issues (Some "/tmp/missing.json") Fixture.store
    = (Raise FileNotFoundError, Fixture.store).
Proof.
  destruct (missing_explicit_file "/tmp/missing.json" Fixture.issues Fixture.store
              eq_refl) as (Hload & Hsave & _).
  by split.
Defined.

End OnConcreteStores.

Lemma close_from_file_persists_witness :
  ∃ (issues : list loc) (w' : world),
    @close_implemented_issues (More.codec_after More.closed_items) None None
      Fixture.store = (Ok issues, w') ∧
    map (obj (heap w')) issues = More.closed_items ∧
    (∃ (loaded : list loc) (w'' : world),
       @load_issues (More.codec_after More.closed_items) None w' = (Ok loaded, w'') ∧
       map (obj (heap w'')) loaded = More.closed_items) ∧
    (∃ (again : list loc) (w'' : world),
       @close_implemented_issues (More.codec_after More.closed_items) None None w'
         = (Ok again, w'') ∧
       map (obj (heap w'')) again = More.closed_items ∧
       fs w'' = fs w').
Proof.
  apply (@close_from_file_persists (More.codec_after More.closed_items) None
           Fixture.store ["tmp"; "git_issues.json"] Fixture.text
           [Fixture.first; Fixture.second; Fixture.third]).
  - exact fixture_found.
  - reflexivity.
  - reflexivity.
  - exact fixture_items.
  - reflexivity.
Defined.

Lemma complete_from_file_persists_witness :
  ∃ (issues : list loc) (w' : world),
    @complete_open_issues (More.codec_after More.completed_items) None None
      Fixture.store = (Ok issues, w') ∧
    map (obj (heap w')) issues = More.completed_items ∧
    (∃ (loaded : list loc) (w'' : world),
       @load_issues (More.codec_after More.completed_items) None w' = (Ok loaded, w'') ∧
       map (obj (heap w'')) loaded = More.completed_items) ∧
    (∃ (again : list loc) (w'' : world),
       @complete_open_issues (More.codec_after More.completed_items) None None w'
         = (Ok again, w'') ∧
       map (obj (heap w'')) again = More.completed_items ∧
       fs w'' = fs w').
Proof.
  apply (@complete_from_file_persists (More.codec_after More.completed_items) None
           Fixture.store ["tmp"; "git_issues.json"] Fixture.text
           [Fixture.first; Fixture.second; Fixture.third]).
  - exact fixture_found.
  - reflexivity.
  - reflexivity.
  - exact fixture_items.
  - reflexivity.
Defined.
